(** * itk::PhaseCorrelationOperator: a shallow embedding and its properties

    The development follows [src/include/itkPhaseCorrelationOperator.hxx].

    Modelling conventions.
    - [IndexValueType] (a signed 64-bit integer) and [SizeValueType] (an
      unsigned 64-bit integer) are integers of [Z]; every arithmetic
      operation of the source is followed by the wrap-around of the type it
      is computed in ([wrapS], [wrapU]).  Signed overflow has no defined
      meaning in C++; the model wraps it, and the theorems are stated for
      regions small enough that no signed operation overflows.
    - [PixelType] (the template parameter [TRealPixel], float or double) is
      modelled by the real numbers [R]: the arithmetic is exact, rounding,
      infinities and NaN are not modelled.
    - The band-pass control points are the exception: an element of the
      tuple is a number or NaN ([FloatValue]), since the tests of the setter
      let NaN through; the comparisons and the arithmetic on the tuple
      follow IEEE 754 for NaN (every comparison but [!=] is false, every
      operation gives NaN).
    - [Index], [Size] and [FixedArray] values of length [VImageDimension]
      are lists, read with [nth] as [operator[]] reads them.
    - An image is its geometry, its meta data entry and its pixel buffer, a
      function from indices to complex samples; writing through an iterator
      is a point-wise update of that function.
    - A member function that may throw returns the object after the call
      together with the exception, if one was thrown. *)

From Stdlib Require Import ZArith List Bool String Reals Lra Lia Psatz.
Import ListNotations.

Local Open Scope Z_scope.

(** ** Machine integers *)

Module Int64.

Definition modulus : Z := 2 ^ 64.
Definition half_modulus : Z := 2 ^ 63.

(** Result of an operation computed in [SizeValueType] (unsigned long). *)
Definition wrapU (z : Z) : Z := z mod modulus.

(** Result of an operation computed in, or converted to, [IndexValueType]
    (long). *)
Definition wrapS (z : Z) : Z := (z + half_modulus) mod modulus - half_modulus.

End Int64.

Import Int64.

(** ** Pixels *)

Definition PixelType : Type := R.

Record ComplexType : Type := Complex { real : PixelType; imag : PixelType }.

(** Comparisons of [PixelType] values, as booleans. *)
Definition Rltb (x y : R) : bool := if Rlt_dec x y then true else false.
Definition Rleb (x y : R) : bool := if Rle_dec x y then true else false.
Definition Rgtb (x y : R) : bool := Rltb y x.
Definition Rgeb (x y : R) : bool := Rleb y x.
Definition Reqb (x y : R) : bool := if Req_dec_T x y then true else false.
Definition Rneqb (x y : R) : bool := negb (Reqb x y).

(** ** Values that may be NaN *)

(** A value of [TRealPixel] where NaN matters: a number, or NaN.  A number
    of [R] is read as such a value where one is expected. *)
Inductive FloatValue : Type :=
| Num (x : R)
| NaN.

Coercion Num : R >-> FloatValue.

Module FV.

(** [a < b], [a <= b], [a > b], [a >= b], [a == b], [a != b]: with a NaN
    on either side the first five are false and the last is true. *)
Definition ltb (a b : FloatValue) : bool :=
  match a, b with Num x, Num y => Rltb x y | _, _ => false end.
Definition leb (a b : FloatValue) : bool :=
  match a, b with Num x, Num y => Rleb x y | _, _ => false end.
Definition gtb (a b : FloatValue) : bool := ltb b a.
Definition geb (a b : FloatValue) : bool := leb b a.
Definition eqb (a b : FloatValue) : bool :=
  match a, b with Num x, Num y => Reqb x y | _, _ => false end.
Definition neqb (a b : FloatValue) : bool := negb (eqb a b).

(** [a * b], [a - b], [a / b]: NaN when an operand is NaN. *)
Definition mul (a b : FloatValue) : FloatValue :=
  match a, b with Num x, Num y => Num (x * y) | _, _ => NaN end.
Definition sub (a b : FloatValue) : FloatValue :=
  match a, b with Num x, Num y => Num (x - y) | _, _ => NaN end.
Definition div (a b : FloatValue) : FloatValue :=
  match a, b with Num x, Num y => Num (x / y) | _, _ => NaN end.

(** [std::isnan] *)
Definition is_nan (a : FloatValue) : bool :=
  match a with NaN => true | Num _ => false end.

(** The two order relations, as propositions. *)
Definition lt (a b : FloatValue) : Prop := ltb a b = true.
Definition le (a b : FloatValue) : Prop := leb a b = true.

End FV.

(** The number a value holds; of use only where the value is known not to
    be NaN. *)
Definition numberOf (a : FloatValue) : PixelType :=
  match a with Num x => x | NaN => 0%R end.

(** ** Indices, sizes, regions and images *)

Definition IndexValueType : Type := Z.
Definition SizeValueType : Type := Z.
Definition IndexType : Type := list IndexValueType.
Definition SizeType : Type := list SizeValueType.
Definition SpacingType : Type := list R.

(** [v[d]] *)
Definition at_ (v : list Z) (d : nat) : Z := nth d v 0.
Definition atR (v : list R) (d : nat) : R := nth d v 0%R.

Record RegionType : Type := Region { GetIndex : IndexType; GetSize : SizeType }.

Definition PixelContainer : Type := IndexType -> ComplexType.

Definition Index_eq_dec : forall i j : IndexType, {i = j} + {i <> j} :=
  list_eq_dec Z.eq_dec.

(** [buf] with the sample at [ind] replaced by [v]. *)
Definition SetPixel (buf : PixelContainer) (ind : IndexType) (v : ComplexType)
  : PixelContainer :=
  fun j => if Index_eq_dec ind j then v else buf j.

Record ImageType : Type := Image {
  GetSpacing : SpacingType;
  GetLargestPossibleRegion : RegionType;
  (** the entry "FFT_Actual_RealImage_Size" of the meta data dictionary *)
  FFT_Actual_RealImage_Size : option SizeValueType;
  GetPixel : PixelContainer
}.

(** *** Walking a region by scan lines

    A scan line runs along axis 0; the lines follow each other with axis 1
    varying fastest, then axis 2, and so on. *)

Definition axisRange (start : IndexValueType) (n : SizeValueType) : list Z :=
  map (fun i => start + Z.of_nat i) (seq 0 (Z.to_nat n)).

(** The index tuples of the axes after the first. *)
Fixpoint lineTails (start : IndexType) (size : SizeType) : list (list Z) :=
  match start, size with
  | s :: start', n :: size' =>
      flat_map (fun rest => map (fun i => i :: rest) (axisRange s n))
               (lineTails start' size')
  | _, _ => [[]]
  end.

Definition scanLines (r : RegionType) : list (list IndexType) :=
  match GetIndex r, GetSize r with
  | s :: start', n :: size' =>
      map (fun rest => map (fun i => i :: rest) (axisRange s n))
          (lineTails start' size')
  | _, _ => []
  end.

(** Every index the iterator visits, in the order of the visit. *)
Definition regionIndices (r : RegionType) : list IndexType :=
  List.concat (scanLines r).

(** ** The operator object *)

(** [FixedArray< TRealPixel, 4 >] *)
Record BandPassPointsType : Type :=
  BandPassPoints { pt0 : FloatValue; pt1 : FloatValue;
                   pt2 : FloatValue; pt3 : FloatValue }.

(** [operator!=] of two arrays: the negation of [operator==], which holds
    when no pair of elements compares different.  An array that holds a
    NaN differs from every array, itself included. *)
Definition BandPassPoints_neqb (a b : BandPassPointsType) : bool :=
  negb (negb (FV.neqb (pt0 a) (pt0 b)) && negb (FV.neqb (pt1 a) (pt1 b))
        && negb (FV.neqb (pt2 a) (pt2 b)) && negb (FV.neqb (pt3 a) (pt3 b))).

Record ExceptionObject : Type := Exception { GetDescription : string }.

(** The members the source reads and writes: the control points, and the
    modification time that [Modified()] advances. *)
Record PhaseCorrelationOperator : Type := Operator {
  m_BandPassControlPoints : BandPassPointsType;
  m_MTime : N
}.

(** [this->Modified()]: the object takes a later time stamp. *)
Definition Modified (self : PhaseCorrelationOperator) : PhaseCorrelationOperator :=
  Operator (m_BandPassControlPoints self) (N.succ (m_MTime self)).

(** The constructor, on an object stamped [t] by its base classes. *)
Definition New (t : N) : PhaseCorrelationOperator :=
  Operator (BandPassPoints 0.05 0.1 0.5 0.9)%R t.

Definition GetBandPassControlPoints (self : PhaseCorrelationOperator)
  : BandPassPointsType := m_BandPassControlPoints self.

Definition SetBandPassControlPoints
    (self : PhaseCorrelationOperator) (points : BandPassPointsType)
  : PhaseCorrelationOperator * option ExceptionObject :=
  if BandPassPoints_neqb (m_BandPassControlPoints self) points then
    if FV.ltb (pt0 points) 0%R then
      (self, Some (Exception
         "Control point 0 must be greater than or equal to 0.0!"))
    else if FV.gtb (pt3 points) 1%R then
      (self, Some (Exception
         "Control point 3 must be less than or equal to 1.0!"))
    else if FV.geb (pt0 points) (pt1 points) then
      (self, Some (Exception
         "Control point 0 must be strictly less than control point 1!"))
    else if FV.geb (pt1 points) (pt2 points) then
      (self, Some (Exception
         "Control point 1 must be strictly less than control point 2!"))
    else if FV.geb (pt2 points) (pt3 points) then
      (self, Some (Exception
         "Control point 2 must be strictly less than control point 3!"))
    else
      (Modified (Operator points (m_MTime self)), None)
  else (self, None).

(** The objects a client can obtain: a new one, and what any sequence of
    calls of the setter leaves, whether they throw or not. *)
Inductive reachable : PhaseCorrelationOperator -> Prop :=
| reachable_New (t : N) : reachable (New t)
| reachable_Set (self : PhaseCorrelationOperator) (points : BandPassPointsType) :
    reachable self -> reachable (fst (SetBandPassControlPoints self points)).

(** What the spec calls a valid tuple: [0 <= c0 < c1 < c2 < c3 <= 1], every
    comparison holding, so that no element is NaN. *)
Definition validPoints (p : BandPassPointsType) : Prop :=
  FV.le 0%R (pt0 p) /\ FV.lt (pt0 p) (pt1 p) /\ FV.lt (pt1 p) (pt2 p) /\
  FV.lt (pt2 p) (pt3 p) /\ FV.le (pt3 p) 1%R.

(** No element of the tuple is NaN. *)
Definition allNumbers (p : BandPassPointsType) : Prop :=
  FV.is_nan (pt0 p) = false /\ FV.is_nan (pt1 p) = false /\
  FV.is_nan (pt2 p) = false /\ FV.is_nan (pt3 p) = false.

(** ** The kernel: [DynamicThreadedGenerateData] *)

Section Kernel.

Variable VImageDimension : nat.

(** The axes [d = 1 .. VImageDimension - 1] of the two inner loops. *)
Definition higherAxes : list nat := seq 1 (VImageDimension - 1).

(** Lines 128-134. *)
Definition computeMaxDist (size : SizeType) : PixelType :=
  let maxDist := IZR (wrapU (at_ size 0 * at_ size 0)) in
  let maxDist :=
    fold_left
      (fun maxDist d =>
         (maxDist + IZR (wrapU (at_ size d * at_ size d)) / 4)%R)
      higherAxes maxDist in
  sqrt maxDist.

(** Lines 153-157: the value of [dInd] that is squared. *)
Definition foldedInd (size : SizeType) (ind ind0 : IndexType) (d : nat)
  : IndexValueType :=
  let dInd := wrapS (at_ ind d - at_ ind0 d) in
  if dInd >=? wrapS (wrapU (at_ size d / 2)) then
    wrapS (wrapU (at_ size d - wrapU (wrapS (at_ ind d - at_ ind0 d))))
  else dInd.

(** Lines 150-160. *)
Definition computeDistFrom0 (size : SizeType) (ind ind0 : IndexType)
  : PixelType :=
  let distFrom0 :=
    IZR (wrapS (wrapS (at_ ind 0 - at_ ind0 0)
                * wrapS (at_ ind 0 - at_ ind0 0))) in
  let distFrom0 :=
    fold_left
      (fun distFrom0 d =>
         let dInd := foldedInd size ind ind0 d in
         (distFrom0 + IZR (wrapS (dInd * dInd)))%R)
      higherAxes distFrom0 in
  sqrt distFrom0.

End Kernel.

Local Open Scope R_scope.

(** Lines 169-189. *)
Definition bandPassFactor
    (distFrom0 c0 c1 c2 c3 oneOverC1minusC0 oneOverC3minusC2 : PixelType)
  : PixelType :=
  if Rltb distFrom0 c0 then 0
  else if Rgeb distFrom0 c0 && Rltb distFrom0 c1 then
    (distFrom0 - c0) * oneOverC1minusC0
  else if Rgeb distFrom0 c1 && Rleb distFrom0 c2 then 1
  else if Rgtb distFrom0 c2 && Rleb distFrom0 c3 then
    (c3 - distFrom0) * oneOverC3minusC2
  else 0.

(** Lines 169-189 again, on control points and reciprocals that may be NaN;
    on numbers it is [bandPassFactor] ([bandPassFactorNaN_numbers]). *)
Definition bandPassFactorNaN
    (distFrom0 c0 c1 c2 c3 oneOverC1minusC0 oneOverC3minusC2 : FloatValue)
  : FloatValue :=
  if FV.ltb distFrom0 c0 then Num 0
  else if FV.geb distFrom0 c0 && FV.ltb distFrom0 c1 then
    FV.mul (FV.sub distFrom0 c0) oneOverC1minusC0
  else if FV.geb distFrom0 c1 && FV.leb distFrom0 c2 then Num 1
  else if FV.gtb distFrom0 c2 && FV.leb distFrom0 c3 then
    FV.mul (FV.sub c3 distFrom0) oneOverC3minusC2
  else Num 0.

(** The factor for control points already scaled by [maxDist], with the two
    reciprocals of lines 139-140. *)
Definition factorAt (c0 c1 c2 c3 distFrom0 : PixelType) : PixelType :=
  let oneOverC1minusC0 := 1 / (c1 - c0) in
  let oneOverC3minusC2 := 1 / (c3 - c2) in
  bandPassFactor distFrom0 c0 c1 c2 c3 oneOverC1minusC0 oneOverC3minusC2.

(** Lines 163-167: the cross-power term and its magnitude. *)
Definition crossReal (f m : ComplexType) : PixelType :=
  real f * real m + imag f * imag m.
Definition crossImag (f m : ComplexType) : PixelType :=
  imag f * real m - real f * imag m.
Definition crossMagn (f m : ComplexType) : PixelType :=
  sqrt (crossReal f m * crossReal f m + crossImag f m * crossImag f m).

(** Lines 191-198: the value handed to [outIt.Set]. *)
Definition normalized (factor : PixelType) (f m : ComplexType) : ComplexType :=
  let real := crossReal f m in
  let imag := crossImag f m in
  let magn := crossMagn f m in
  if Rneqb magn 0 then Complex (factor * real / magn) (factor * imag / magn)
  else Complex 0 0.

Section Evaluation.

Variable VImageDimension : nat.
Variable self : PhaseCorrelationOperator.
Variables fixed moving : ImageType.

(** What lines 128-141 compute once per call, from the output's geometry. *)
Definition maxDistOf (output : ImageType) : PixelType :=
  computeMaxDist VImageDimension (GetSize (GetLargestPossibleRegion output)).

(** Lines 135-141 and 149-189: the radius of the sample at [ind] and its
    band-pass factor. *)
Definition radiusAt (output : ImageType) (ind : IndexType) : PixelType :=
  let size := GetSize (GetLargestPossibleRegion output) in
  let ind0 := GetIndex (GetLargestPossibleRegion output) in
  computeDistFrom0 VImageDimension size ind ind0.

(** The stored control points may hold NaN, and with them [c0] to [c3] and
    the two reciprocals; the factor is a number all the same
    ([factorOf_is_number]), and it is the one of [factorAt] when the stored
    tuple holds numbers ([factorOf_numbers]). *)
Definition factorOf (output : ImageType) (ind : IndexType) : PixelType :=
  let maxDist := maxDistOf output in
  let c0 := FV.mul (pt0 (m_BandPassControlPoints self)) maxDist in
  let c1 := FV.mul (pt1 (m_BandPassControlPoints self)) maxDist in
  let c2 := FV.mul (pt2 (m_BandPassControlPoints self)) maxDist in
  let c3 := FV.mul (pt3 (m_BandPassControlPoints self)) maxDist in
  let oneOverC1minusC0 := FV.div 1 (FV.sub c1 c0) in
  let oneOverC3minusC2 := FV.div 1 (FV.sub c3 c2) in
  let distFrom0 := radiusAt output ind in
  numberOf (bandPassFactorNaN distFrom0 c0 c1 c2 c3
                              oneOverC1minusC0 oneOverC3minusC2).

(** The body of the inner loop at index [ind]: the sample written there. *)
Definition sampleAt (output : ImageType) (ind : IndexType) : ComplexType :=
  let factor := factorOf output ind in
  normalized factor (GetPixel fixed ind) (GetPixel moving ind).

(** One step of the inner loop: [outIt.Set(...)], then the three iterators
    advance together. *)
Definition visit (output : ImageType) (ind : IndexType) : ImageType :=
  Image (GetSpacing output) (GetLargestPossibleRegion output)
        (FFT_Actual_RealImage_Size output)
        (SetPixel (GetPixel output) ind (sampleAt output ind)).

(** The outer loop over the scan lines of the thread's region, the inner
    loop over the samples of a line. *)
Definition DynamicThreadedGenerateData
    (output : ImageType) (outputRegionForThread : RegionType) : ImageType :=
  fold_left (fun output line => fold_left visit line output)
            (scanLines outputRegionForThread) output.

(** The calls for the regions of a list, one after the other. *)
Definition runRegions (output : ImageType) (regions : list RegionType)
  : ImageType :=
  fold_left DynamicThreadedGenerateData regions output.

End Evaluation.

(** ** The output geometry: [GenerateOutputInformation] *)

(** Modelled from the spec: [AdjustOutputInformation] is a member declared
    in the class header, which is not among the sources.  Section 4.2 of the
    spec gives the output geometry as the values computed before the call
    and nothing more, so the hook leaves its three arguments as they are. *)
Definition AdjustOutputInformation
    (spacing : SpacingType) (index : IndexType) (size : SizeType)
  : SpacingType * IndexType * SizeType :=
  (spacing, index, size).

Section OutputInformation.

Variable ImageDimension : nat.

(** Lines 277-284, one definition per array the loop fills. *)
Definition computeOutputSpacing (fixedSpacing movingSpacing : SpacingType)
  : SpacingType :=
  map (fun i => if Rgeb (atR fixedSpacing i) (atR movingSpacing i)
                then atR fixedSpacing i else atR movingSpacing i)
      (seq 0 ImageDimension).

Definition computeOutputSize (fixedSize movingSize : SizeType) : SizeType :=
  map (fun i => if (at_ fixedSize i <=? at_ movingSize i)%Z
                then at_ fixedSize i else at_ movingSize i)
      (seq 0 ImageDimension).

Definition computeOutputStartIndex (fixedStartIndex : IndexType) : IndexType :=
  map (fun i => at_ fixedStartIndex i) (seq 0 ImageDimension).

(** Lines 304-323: the entry is written when both inputs carry one, and is
    left as it was otherwise. *)
Definition computeMetaData (fixedDic movingDic outputDic : option SizeValueType)
  : option SizeValueType :=
  match fixedDic, movingDic with
  | Some fixedX, Some movingX =>
      Some (if (fixedX >? movingX)%Z then movingX else fixedX)
  | _, _ => outputDic
  end.

(** [fixed], [moving] and [output] are what [GetInput(0)], [GetInput(1)] and
    [GetOutput()] return, [None] for a null pointer; [output] is taken after
    the call of the superclass's method.  The result is the output object
    after the call. *)
Definition GenerateOutputInformation (fixed moving output : option ImageType)
  : option ImageType :=
  match fixed, moving, output with
  | Some fixed, Some moving, Some output =>
      let fixedSpacing := GetSpacing fixed in
      let movingSpacing := GetSpacing moving in
      let fixedSize := GetSize (GetLargestPossibleRegion fixed) in
      let movingSize := GetSize (GetLargestPossibleRegion moving) in
      let fixedStartIndex := GetIndex (GetLargestPossibleRegion fixed) in
      let '(outputSpacing, outputStartIndex, outputSize) :=
        AdjustOutputInformation
          (computeOutputSpacing fixedSpacing movingSpacing)
          (computeOutputStartIndex fixedStartIndex)
          (computeOutputSize fixedSize movingSize) in
      Some (Image outputSpacing
                  (Region outputStartIndex outputSize)
                  (computeMetaData (FFT_Actual_RealImage_Size fixed)
                                   (FFT_Actual_RealImage_Size moving)
                                   (FFT_Actual_RealImage_Size output))
                  (GetPixel output))
  | _, _, _ => output
  end.

End OutputInformation.

(** ** Notions the properties are stated with *)

(** The modulus of a complex sample. *)
Definition Cabs (z : ComplexType) : PixelType :=
  sqrt (real z * real z + imag z * imag z).

(** The sum under the square root of [computeDistFrom0], in integers. *)
Definition sqDistZ (VImageDimension : nat) (size : SizeType)
    (ind ind0 : IndexType) : Z :=
  fold_left
    (fun acc d =>
       let dInd := foldedInd size ind ind0 d in
       (acc + wrapS (dInd * dInd))%Z)
    (higherAxes VImageDimension)
    (wrapS (wrapS (at_ ind 0 - at_ ind0 0)
            * wrapS (at_ ind 0 - at_ ind0 0))).

(** Four times the sum under the square root of [computeMaxDist], in
    integers. *)
Definition maxDistSq4Z (VImageDimension : nat) (size : SizeType) : Z :=
  fold_left
    (fun acc d => (acc + wrapU (at_ size d * at_ size d))%Z)
    (higherAxes VImageDimension)
    (4 * wrapU (at_ size 0 * at_ size 0))%Z.

(** [j] is an index of one of the regions of the list. *)
Definition coveredb (j : IndexType) (regions : list RegionType) : bool :=
  existsb
    (fun r => if in_dec Index_eq_dec j (regionIndices r) then true else false)
    regions.

(** [regions] cover [whole]: the indices of [whole] are those of the
    regions. *)
Definition covers (regions : list RegionType) (whole : RegionType) : Prop :=
  forall j : IndexType,
    In j (regionIndices whole) <->
    exists r, In r regions /\ In j (regionIndices r).

(** No index belongs to two regions of the list. *)
Definition disjointRegions (regions : list RegionType) : Prop :=
  ForallOrdPairs
    (fun r1 r2 => forall j : IndexType,
         ~ (In j (regionIndices r1) /\ In j (regionIndices r2)))
    regions.

(** [regions] split [whole] into sub-regions, each index in exactly one. *)
Definition partitionOf (regions : list RegionType) (whole : RegionType)
  : Prop :=
  covers regions whole /\ disjointRegions regions.

(** ** Sample data *)

Module Sample.

(** An image of the given region with unit spacing, no meta data entry and
    the same sample everywhere. *)
Definition constantImage (start : IndexType) (size : SizeType)
    (v : ComplexType) : ImageType :=
  Image (map (fun _ => 1) size) (Region start size) None (fun _ => v).

Definition square : RegionType := Region [0; 0]%Z [2; 2]%Z.
Definition lowerLine : RegionType := Region [0; 0]%Z [2; 1]%Z.
Definition upperLine : RegionType := Region [0; 1]%Z [2; 1]%Z.

Definition zeros : ImageType := constantImage [0; 0]%Z [2; 2]%Z (Complex 0 0).
Definition ones : ImageType := constantImage [0; 0]%Z [2; 2]%Z (Complex 1 0).

End Sample.

(** ** The requested regions: [GenerateInputRequestedRegion] and
    [EnlargeOutputRequestedRegion] *)

(** An image as a pipeline data object: the image and the region that is
    requested of it. *)
Record DataObject : Type := Data {
  GetImage : ImageType;
  GetRequestedRegion : RegionType
}.

Definition SetRequestedRegion (data : DataObject) (region : RegionType)
  : DataObject :=
  Data (GetImage data) region.

Definition SetRequestedRegionToLargestPossibleRegion (data : DataObject)
  : DataObject :=
  SetRequestedRegion data (GetLargestPossibleRegion (GetImage data)).

(** Lines 211-234.  [fixed] and [moving] are the two inputs, [None] for a
    null pointer, taken after the call of the superclass's method; the
    result is the two inputs after the call. *)
Definition GenerateInputRequestedRegion (fixed moving : option DataObject)
  : option DataObject * option DataObject :=
  match fixed, moving with
  | Some f, Some m =>
      (Some (SetRequestedRegion f (GetLargestPossibleRegion (GetImage f))),
       Some (SetRequestedRegion m (GetLargestPossibleRegion (GetImage m))))
  | _, _ => (fixed, moving)
  end.

(** Lines 327-334, on the output after the call of the superclass's
    method. *)
Definition EnlargeOutputRequestedRegion (output : DataObject) : DataObject :=
  SetRequestedRegionToLargestPossibleRegion output.

(** ** Further notions the properties are stated with *)

(** The calls of the setter for the tuples of a list, one after the other,
    each exception caught and dropped. *)
Definition setAll (self : PhaseCorrelationOperator)
    (calls : list BandPassPointsType) : PhaseCorrelationOperator :=
  fold_left (fun self points => fst (SetBandPassControlPoints self points))
            calls self.

(** [validPoints], decided. *)
Definition validPointsb (p : BandPassPointsType) : bool :=
  FV.leb 0 (pt0 p) && FV.ltb (pt0 p) (pt1 p) && FV.ltb (pt1 p) (pt2 p)
  && FV.ltb (pt2 p) (pt3 p) && FV.leb (pt3 p) 1.

(** The five tests of lines 85-104 all fail to fire. *)
Definition testsPass (p : BandPassPointsType) : bool :=
  negb (FV.ltb (pt0 p) 0) && negb (FV.gtb (pt3 p) 1)
  && negb (FV.geb (pt0 p) (pt1 p)) && negb (FV.geb (pt1 p) (pt2 p))
  && negb (FV.geb (pt2 p) (pt3 p)).

(** The last valid tuple of a list, [dflt] when it has none. *)
Definition lastValid (dflt : BandPassPointsType)
    (calls : list BandPassPointsType) : BandPassPointsType :=
  fold_left (fun cur p => if validPointsb p then p else cur) calls dflt.

(** The trapezoid over the four control points, in closed form. *)
Definition trapezoid (c0 c1 c2 c3 r : R) : R :=
  Rmax 0 (Rmin 1 (Rmin ((r - c0) / (c1 - c0)) ((c3 - r) / (c3 - c2)))).

(** The complex conjugate, and a sample scaled by a real number. *)
Definition Cconj (z : ComplexType) : ComplexType :=
  Complex (real z) (- imag z).
Definition Cscale (a : R) (z : ComplexType) : ComplexType :=
  Complex (a * real z) (a * imag z).

(** [ind] lies in the box that starts at [start] and extends by [size], on
    as many axes as both lists have. *)
Fixpoint inBox (start : IndexType) (size : SizeType) (ind : IndexType)
  : Prop :=
  match start, size with
  | s :: start', n :: size' =>
      match ind with
      | i :: ind' => (s <= i < s + n)%Z /\ inBox start' size' ind'
      | [] => False
      end
  | _, _ => ind = []
  end.

(** * Properties *)

(** ** Machine integers and comparisons *)

Lemma wrapU_small (z : Z) : (0 <= z < modulus)%Z -> wrapU z = z.
Proof. intros H. unfold wrapU. now apply Z.mod_small. Qed.

Lemma wrapS_small (z : Z) :
  (- half_modulus <= z < half_modulus)%Z -> wrapS z = z.
Proof.
  intros H. unfold wrapS.
  rewrite Z.mod_small; unfold modulus, half_modulus in *; lia.
Qed.

Lemma Rltb_true x y : Rltb x y = true <-> (x < y)%R.
Proof. unfold Rltb. destruct (Rlt_dec x y); split; intros; try easy. Qed.

Lemma Rltb_false x y : Rltb x y = false <-> (y <= x)%R.
Proof.
  unfold Rltb. destruct (Rlt_dec x y); split; intros; try easy; lra.
Qed.

Lemma Rleb_true x y : Rleb x y = true <-> (x <= y)%R.
Proof. unfold Rleb. destruct (Rle_dec x y); split; intros; try easy. Qed.

Lemma Rleb_false x y : Rleb x y = false <-> (y < x)%R.
Proof.
  unfold Rleb. destruct (Rle_dec x y); split; intros; try easy; lra.
Qed.

Lemma Reqb_true x y : Reqb x y = true <-> x = y.
Proof. unfold Reqb. destruct (Req_dec_T x y); split; intros; easy. Qed.

Lemma Reqb_false x y : Reqb x y = false <-> x <> y.
Proof. unfold Reqb. destruct (Req_dec_T x y); split; intros; easy. Qed.

(** ** The band-pass factor *)

Lemma bandPassFactor_below r c0 c1 c2 c3 a b :
  r < c0 -> bandPassFactor r c0 c1 c2 c3 a b = 0.
Proof.
  intros H. unfold bandPassFactor.
  now replace (Rltb r c0) with true by (symmetry; now apply Rltb_true).
Qed.

Lemma bandPassFactor_rampUp r c0 c1 c2 c3 a b :
  c0 <= r < c1 -> bandPassFactor r c0 c1 c2 c3 a b = (r - c0) * a.
Proof.
  intros [H0 H1]. unfold bandPassFactor, Rgeb.
  replace (Rltb r c0) with false by (symmetry; now apply Rltb_false).
  replace (Rleb c0 r) with true by (symmetry; now apply Rleb_true).
  now replace (Rltb r c1) with true by (symmetry; now apply Rltb_true).
Qed.

Lemma bandPassFactor_pass r c0 c1 c2 c3 a b :
  c0 <= r -> c1 <= r <= c2 -> bandPassFactor r c0 c1 c2 c3 a b = 1.
Proof.
  intros H0 [H1 H2]. unfold bandPassFactor, Rgeb.
  replace (Rltb r c0) with false by (symmetry; now apply Rltb_false).
  replace (Rleb c0 r) with true by (symmetry; now apply Rleb_true).
  replace (Rltb r c1) with false by (symmetry; now apply Rltb_false).
  replace (Rleb c1 r) with true by (symmetry; now apply Rleb_true).
  now replace (Rleb r c2) with true by (symmetry; now apply Rleb_true).
Qed.

Lemma bandPassFactor_rampDown r c0 c1 c2 c3 a b :
  c0 <= r -> c1 <= r -> c2 < r <= c3 ->
  bandPassFactor r c0 c1 c2 c3 a b = (c3 - r) * b.
Proof.
  intros H0 H1 [H2 H3]. unfold bandPassFactor, Rgeb, Rgtb.
  replace (Rltb r c0) with false by (symmetry; now apply Rltb_false).
  replace (Rleb c0 r) with true by (symmetry; now apply Rleb_true).
  replace (Rltb r c1) with false by (symmetry; now apply Rltb_false).
  replace (Rleb c1 r) with true by (symmetry; now apply Rleb_true).
  replace (Rleb r c2) with false by (symmetry; now apply Rleb_false).
  replace (Rltb c2 r) with true by (symmetry; now apply Rltb_true).
  now replace (Rleb r c3) with true by (symmetry; now apply Rleb_true).
Qed.

Lemma bandPassFactor_above r c0 c1 c2 c3 a b :
  c0 <= r -> c1 <= r -> c2 < r -> c3 < r ->
  bandPassFactor r c0 c1 c2 c3 a b = 0.
Proof.
  intros H0 H1 H2 H3. unfold bandPassFactor, Rgeb, Rgtb.
  replace (Rltb r c0) with false by (symmetry; now apply Rltb_false).
  replace (Rleb c0 r) with true by (symmetry; now apply Rleb_true).
  replace (Rltb r c1) with false by (symmetry; now apply Rltb_false).
  replace (Rleb c1 r) with true by (symmetry; now apply Rleb_true).
  replace (Rleb r c2) with false by (symmetry; now apply Rleb_false).
  replace (Rltb c2 r) with true by (symmetry; now apply Rltb_true).
  now replace (Rleb r c3) with false by (symmetry; now apply Rleb_false).
Qed.

(** C3.  For scaled control points [c0 < c1 < c2 < c3] and every radius
    [r], the factor is [0] below [c0], [(r - c0) / (c1 - c0)] on
    [c0 <= r < c1], [1] on [c1 <= r <= c2], [(c3 - r) / (c3 - c2)] on
    [c2 < r <= c3] and [0] above [c3]; at the four control points it is
    [0], [1], [1] and [0]. *)
Theorem C3_bandPassFactor_piecewise (c0 c1 c2 c3 r : PixelType) :
  c0 < c1 -> c1 < c2 -> c2 < c3 ->
  (r < c0 -> factorAt c0 c1 c2 c3 r = 0) /\
  (c0 <= r < c1 -> factorAt c0 c1 c2 c3 r = (r - c0) / (c1 - c0)) /\
  (c1 <= r <= c2 -> factorAt c0 c1 c2 c3 r = 1) /\
  (c2 < r <= c3 -> factorAt c0 c1 c2 c3 r = (c3 - r) / (c3 - c2)) /\
  (c3 < r -> factorAt c0 c1 c2 c3 r = 0) /\
  factorAt c0 c1 c2 c3 c0 = 0 /\ factorAt c0 c1 c2 c3 c1 = 1 /\
  factorAt c0 c1 c2 c3 c2 = 1 /\ factorAt c0 c1 c2 c3 c3 = 0.
Proof.
  unfold PixelType in *. intros H01 H12 H23. unfold factorAt.
  repeat apply conj.
  - intros H. now apply bandPassFactor_below.
  - intros H. rewrite bandPassFactor_rampUp by exact H. field. lra.
  - intros H. apply bandPassFactor_pass; lra.
  - intros H. rewrite bandPassFactor_rampDown by lra. field. lra.
  - intros H. apply bandPassFactor_above; lra.
  - rewrite bandPassFactor_rampUp by lra. lra.
  - apply bandPassFactor_pass; lra.
  - apply bandPassFactor_pass; lra.
  - rewrite bandPassFactor_rampDown by lra. lra.
Qed.

Lemma C3_bandPassFactor_piecewise_witness :
  (1 < 2 /\ 2 < 5 /\ 5 < 9) /\
  factorAt 1 2 5 9 6 = (9 - 6) / (9 - 5).
Proof.
  split; [lra |].
  apply (C3_bandPassFactor_piecewise 1 2 5 9 6); lra.
Defined.

Lemma factorAt_range (c0 c1 c2 c3 r : PixelType) :
  0 <= factorAt c0 c1 c2 c3 r <= 1.
Proof.
  unfold PixelType in *. unfold factorAt, bandPassFactor, Rgeb, Rgtb.
  destruct (Rltb r c0) eqn:E0; [lra |].
  apply Rltb_false in E0.
  replace (Rleb c0 r) with true by (symmetry; now apply Rleb_true).
  cbn [andb].
  destruct (Rltb r c1) eqn:E1.
  - apply Rltb_true in E1.
    assert (Hi : 0 < / (c1 - c0)) by (apply Rinv_0_lt_compat; lra).
    assert (Hd : (c1 - c0) * / (c1 - c0) = 1) by (apply Rinv_r; lra).
    unfold Rdiv. rewrite Rmult_1_l. nra.
  - apply Rltb_false in E1.
    replace (Rleb c1 r) with true by (symmetry; now apply Rleb_true).
    cbn [andb].
    destruct (Rleb r c2) eqn:E2; [lra |].
    apply Rleb_false in E2.
    replace (Rltb c2 r) with true by (symmetry; now apply Rltb_true).
    cbn [andb].
    destruct (Rleb r c3) eqn:E3; [| lra].
    apply Rleb_true in E3.
    assert (Hi : 0 < / (c3 - c2)) by (apply Rinv_0_lt_compat; lra).
    assert (Hd : (c3 - c2) * / (c3 - c2) = 1) by (apply Rinv_r; lra).
    unfold Rdiv. rewrite Rmult_1_l. nra.
Qed.

(** *** Control points that may be NaN *)

Lemma ramp_up_range (a b r : R) :
  a <= r < b -> 0 <= (r - a) * (1 / (b - a)) <= 1.
Proof.
  intros H.
  assert (Hi : 0 < / (b - a)) by (apply Rinv_0_lt_compat; lra).
  assert (Hd : (b - a) * / (b - a) = 1) by (apply Rinv_r; lra).
  unfold Rdiv. rewrite Rmult_1_l. nra.
Qed.

Lemma ramp_down_range (c d r : R) :
  c < r <= d -> 0 <= (d - r) * (1 / (d - c)) <= 1.
Proof.
  intros H.
  assert (Hi : 0 < / (d - c)) by (apply Rinv_0_lt_compat; lra).
  assert (Hd : (d - c) * / (d - c) = 1) by (apply Rinv_r; lra).
  unfold Rdiv. rewrite Rmult_1_l. nra.
Qed.

(** On numbers the chain is [bandPassFactor]. *)
Lemma bandPassFactorNaN_numbers (r c0 c1 c2 c3 a b : R) :
  bandPassFactorNaN r c0 c1 c2 c3 a b = Num (bandPassFactor r c0 c1 c2 c3 a b).
Proof.
  unfold bandPassFactorNaN, bandPassFactor, FV.geb, FV.gtb, Rgeb, Rgtb.
  cbn [FV.ltb FV.leb FV.mul FV.sub].
  destruct (Rltb r c0); [reflexivity |].
  destruct (Rleb c0 r && Rltb r c1); [reflexivity |].
  destruct (Rleb c1 r && Rleb r c2); [reflexivity |].
  destruct (Rleb c3 r); destruct (Rltb c2 r && Rleb r c3); reflexivity.
Qed.

Ltac decide_comparisons :=
  repeat match goal with
         | |- context [Rltb ?x ?y] =>
             let E := fresh "E" in
             destruct (Rltb x y) eqn:E;
             [apply Rltb_true in E | apply Rltb_false in E]
         | |- context [Rleb ?x ?y] =>
             let E := fresh "E" in
             destruct (Rleb x y) eqn:E;
             [apply Rleb_true in E | apply Rleb_false in E]
         end; cbn [andb].

(** Whatever the control points hold, the chain gives a number, and one
    of [[0,1]]: a ramp is only taken after two tests that no NaN
    passes. *)
Lemma bandPassFactorNaN_range (r : R) (c0 c1 c2 c3 : FloatValue) :
  exists x : R,
    bandPassFactorNaN r c0 c1 c2 c3
      (FV.div 1 (FV.sub c1 c0)) (FV.div 1 (FV.sub c3 c2)) = Num x /\
    0 <= x <= 1.
Proof.
  unfold bandPassFactorNaN, FV.geb, FV.gtb.
  destruct c0 as [a |], c1 as [b |], c2 as [c |], c3 as [d |];
    cbn [FV.ltb FV.leb FV.mul FV.sub FV.div andb];
    decide_comparisons;
    (eexists; split; [reflexivity |]);
    first [lra | apply ramp_up_range; lra | apply ramp_down_range; lra].
Qed.

(** ** The normalised cross-power term *)

Lemma crossMagn_nonneg (f m : ComplexType) : 0 <= crossMagn f m.
Proof. unfold crossMagn. apply sqrt_pos. Qed.

Lemma crossMagn_zero_l (f m : ComplexType) :
  f = Complex 0 0 -> crossMagn f m = 0.
Proof.
  intros ->. unfold crossMagn, crossReal, crossImag. cbn [real imag].
  replace (_ + _) with 0 by ring. apply sqrt_0.
Qed.

Lemma crossMagn_zero_r (f m : ComplexType) :
  m = Complex 0 0 -> crossMagn f m = 0.
Proof.
  intros ->. unfold crossMagn, crossReal, crossImag. cbn [real imag].
  replace (_ + _) with 0 by ring. apply sqrt_0.
Qed.

Lemma normalized_zero_magn (factor : PixelType) (f m : ComplexType) :
  crossMagn f m = 0 -> normalized factor f m = Complex 0 0.
Proof.
  intros H. unfold normalized, Rneqb.
  now replace (Reqb (crossMagn f m) 0) with true
    by (symmetry; now apply Reqb_true).
Qed.

Lemma normalized_nonzero_magn (factor : PixelType) (f m : ComplexType) :
  crossMagn f m <> 0 ->
  normalized factor f m =
  Complex (factor * crossReal f m / crossMagn f m)
          (factor * crossImag f m / crossMagn f m).
Proof.
  intros H. unfold normalized, Rneqb.
  now replace (Reqb (crossMagn f m) 0) with false
    by (symmetry; now apply Reqb_false).
Qed.

Lemma Cabs_zero : Cabs (Complex 0 0) = 0.
Proof.
  unfold Cabs. cbn [real imag]. replace (_ + _) with 0 by ring. apply sqrt_0.
Qed.

Lemma Cabs_normalized (factor : PixelType) (f m : ComplexType) :
  0 <= factor -> crossMagn f m <> 0 -> Cabs (normalized factor f m) = factor.
Proof.
  unfold PixelType in *. intros Hf Hm.
  rewrite normalized_nonzero_magn by exact Hm.
  unfold Cabs. cbn [real imag].
  set (re := crossReal f m). set (im := crossImag f m).
  assert (Hsq : crossMagn f m * crossMagn f m = re * re + im * im).
  { unfold crossMagn. fold re im. apply sqrt_sqrt. nra. }
  set (mg := crossMagn f m) in *.
  assert (Hi : mg * / mg = 1) by (now apply Rinv_r).
  unfold Rdiv.
  replace (factor * re * / mg * (factor * re * / mg)
           + factor * im * / mg * (factor * im * / mg))
    with (factor * factor * ((re * re + im * im) * (/ mg * / mg))) by ring.
  rewrite <- Hsq.
  replace (mg * mg * (/ mg * / mg)) with (mg * / mg * (mg * / mg)) by ring.
  rewrite Hi, !Rmult_1_r. now apply sqrt_square.
Qed.

(** ** What a call of [DynamicThreadedGenerateData] leaves in the buffer *)

Section EvaluationFacts.

Variable VImageDimension : nat.
Variable self : PhaseCorrelationOperator.
Variables fixed moving : ImageType.

Let visit' := visit VImageDimension self fixed moving.
Let sampleAt' := sampleAt VImageDimension self fixed moving.

Lemma sampleAt_geometry (o o' : ImageType) (j : IndexType) :
  GetLargestPossibleRegion o' = GetLargestPossibleRegion o ->
  sampleAt' o' j = sampleAt' o j.
Proof.
  intros H. unfold sampleAt', sampleAt, factorOf, radiusAt, maxDistOf.
  now rewrite H.
Qed.

Lemma fold_visit_region (l : list IndexType) (o : ImageType) :
  GetLargestPossibleRegion (fold_left visit' l o) = GetLargestPossibleRegion o.
Proof.
  revert o. induction l as [| i l IH]; intros o; [reflexivity |].
  cbn [fold_left]. now rewrite IH.
Qed.

Lemma fold_visit_pixel (l : list IndexType) (o : ImageType) (j : IndexType) :
  GetPixel (fold_left visit' l o) j =
  if in_dec Index_eq_dec j l then sampleAt' o j else GetPixel o j.
Proof.
  revert o. induction l as [| i l IH]; intros o; [reflexivity |].
  cbn [fold_left]. rewrite IH.
  assert (Hs : sampleAt' (visit' o i) j = sampleAt' o j)
    by (now apply sampleAt_geometry).
  rewrite Hs.
  destruct (in_dec Index_eq_dec j l) as [Hl | Hl];
    destruct (in_dec Index_eq_dec j (i :: l)) as [Hc | Hc]; try reflexivity.
  - exfalso. apply Hc. now right.
  - unfold visit', visit, SetPixel. cbn [GetPixel].
    destruct (Index_eq_dec i j) as [-> | Hne]; [reflexivity |].
    destruct Hc as [-> | Hc]; [now elim Hne | now elim Hl].
  - unfold visit', visit, SetPixel. cbn [GetPixel].
    destruct (Index_eq_dec i j) as [-> | Hne]; [| reflexivity].
    exfalso. apply Hc. now left.
Qed.

Lemma fold_lines_concat (lines : list (list IndexType)) (o : ImageType) :
  fold_left (fun output line => fold_left visit' line output) lines o =
  fold_left visit' (List.concat lines) o.
Proof.
  revert o. induction lines as [| l lines IH]; intros o; [reflexivity |].
  cbn [fold_left List.concat]. now rewrite fold_left_app, IH.
Qed.

Lemma DynamicThreadedGenerateData_region (o : ImageType) (r : RegionType) :
  GetLargestPossibleRegion
    (DynamicThreadedGenerateData VImageDimension self fixed moving o r) =
  GetLargestPossibleRegion o.
Proof.
  unfold DynamicThreadedGenerateData. fold visit'.
  rewrite fold_lines_concat. apply fold_visit_region.
Qed.

(** After a call, the buffer holds [sampleAt] at the indices of the region
    and is as before elsewhere. *)
Lemma DynamicThreadedGenerateData_pixel
    (o : ImageType) (r : RegionType) (j : IndexType) :
  GetPixel (DynamicThreadedGenerateData VImageDimension self fixed moving o r) j
  = if in_dec Index_eq_dec j (regionIndices r)
    then sampleAt' o j else GetPixel o j.
Proof.
  unfold DynamicThreadedGenerateData. fold visit'.
  rewrite fold_lines_concat. apply fold_visit_pixel.
Qed.

Lemma runRegions_region (rs : list RegionType) (o : ImageType) :
  GetLargestPossibleRegion
    (runRegions VImageDimension self fixed moving o rs) =
  GetLargestPossibleRegion o.
Proof.
  revert o. induction rs as [| r rs IH]; intros o; [reflexivity |].
  unfold runRegions in *. cbn [fold_left].
  now rewrite IH, DynamicThreadedGenerateData_region.
Qed.

Lemma coveredb_spec (j : IndexType) (rs : list RegionType) :
  coveredb j rs = true <-> exists r, In r rs /\ In j (regionIndices r).
Proof.
  unfold coveredb. rewrite existsb_exists.
  split; intros [r [Hr Hj]]; exists r; split; try exact Hr.
  - now destruct (in_dec Index_eq_dec j (regionIndices r)).
  - now destruct (in_dec Index_eq_dec j (regionIndices r)).
Qed.

(** After the calls for a list of regions, in the order of the list, the
    buffer holds [sampleAt] at every index of one of the regions and is as
    before elsewhere. *)
Lemma runRegions_pixel (rs : list RegionType) (o : ImageType) (j : IndexType) :
  GetPixel (runRegions VImageDimension self fixed moving o rs) j =
  if coveredb j rs then sampleAt' o j else GetPixel o j.
Proof.
  revert o. induction rs as [| r rs IH]; intros o; [reflexivity |].
  unfold runRegions in *. cbn [fold_left].
  rewrite IH.
  rewrite (sampleAt_geometry o) by apply DynamicThreadedGenerateData_region.
  rewrite DynamicThreadedGenerateData_pixel.
  unfold coveredb. cbn [existsb].
  destruct (in_dec Index_eq_dec j (regionIndices r)); cbn [orb]; [| reflexivity].
  now destruct (existsb _ rs).
Qed.

End EvaluationFacts.

(** *** The factor of a run *)

(** The chain of a run never yields NaN, whatever tuple is stored. *)
Lemma factorOf_is_number
    (VImageDimension : nat) (self : PhaseCorrelationOperator)
    (output : ImageType) (ind : IndexType) :
  let maxDist := maxDistOf VImageDimension output in
  let c0 := FV.mul (pt0 (m_BandPassControlPoints self)) maxDist in
  let c1 := FV.mul (pt1 (m_BandPassControlPoints self)) maxDist in
  let c2 := FV.mul (pt2 (m_BandPassControlPoints self)) maxDist in
  let c3 := FV.mul (pt3 (m_BandPassControlPoints self)) maxDist in
  bandPassFactorNaN (radiusAt VImageDimension output ind) c0 c1 c2 c3
    (FV.div 1 (FV.sub c1 c0)) (FV.div 1 (FV.sub c3 c2))
  = Num (factorOf VImageDimension self output ind).
Proof.
  intros maxDist c0 c1 c2 c3. unfold factorOf. fold maxDist c0 c1 c2 c3.
  destruct (bandPassFactorNaN_range (radiusAt VImageDimension output ind)
              c0 c1 c2 c3) as [x [Hx _]].
  now rewrite Hx.
Qed.

Lemma factorOf_range
    (VImageDimension : nat) (self : PhaseCorrelationOperator)
    (output : ImageType) (ind : IndexType) :
  0 <= factorOf VImageDimension self output ind <= 1.
Proof.
  unfold factorOf.
  destruct (bandPassFactorNaN_range
              (radiusAt VImageDimension output ind)
              (FV.mul (pt0 (m_BandPassControlPoints self))
                      (maxDistOf VImageDimension output))
              (FV.mul (pt1 (m_BandPassControlPoints self))
                      (maxDistOf VImageDimension output))
              (FV.mul (pt2 (m_BandPassControlPoints self))
                      (maxDistOf VImageDimension output))
              (FV.mul (pt3 (m_BandPassControlPoints self))
                      (maxDistOf VImageDimension output)))
    as [x [Hx Hr]].
  rewrite Hx. exact Hr.
Qed.

(** With a stored tuple of numbers the factor is the one of [factorAt], at
    the control points scaled by [maxDist]. *)
Lemma factorOf_numbers
    (VImageDimension : nat) (self : PhaseCorrelationOperator)
    (output : ImageType) (ind : IndexType) (p0 p1 p2 p3 : R) :
  m_BandPassControlPoints self = BandPassPoints p0 p1 p2 p3 ->
  factorOf VImageDimension self output ind =
  factorAt (p0 * maxDistOf VImageDimension output)
           (p1 * maxDistOf VImageDimension output)
           (p2 * maxDistOf VImageDimension output)
           (p3 * maxDistOf VImageDimension output)
           (radiusAt VImageDimension output ind).
Proof.
  intros H. unfold factorOf, factorAt. rewrite H.
  cbn [pt0 pt1 pt2 pt3 FV.mul FV.sub FV.div].
  now rewrite bandPassFactorNaN_numbers.
Qed.

(** A valid tuple is a tuple of four numbers in the order the spec asks
    for. *)
Lemma validPoints_numbers (p : BandPassPointsType) :
  validPoints p <->
  exists p0 p1 p2 p3 : R,
    p = BandPassPoints p0 p1 p2 p3 /\
    0 <= p0 /\ p0 < p1 /\ p1 < p2 /\ p2 < p3 /\ p3 <= 1.
Proof.
  unfold validPoints, FV.le, FV.lt. split.
  - destruct p as [[a |] [b |] [c |] [d |]];
      cbn [pt0 pt1 pt2 pt3 FV.ltb FV.leb];
      intros [H0 [H1 [H2 [H3 H4]]]]; try discriminate.
    apply Rleb_true in H0, H4. apply Rltb_true in H1, H2, H3.
    exists a, b, c, d. repeat split; assumption.
  - intros [a [b [c [d [-> [H0 [H1 [H2 [H3 H4]]]]]]]]].
    cbn [pt0 pt1 pt2 pt3 FV.ltb FV.leb].
    rewrite !Rleb_true, !Rltb_true. repeat split; assumption.
Qed.

(** C4.  At every index of the thread's region where the cross-power
    magnitude is zero, and so wherever the fixed or the moving sample is
    [0+0i], the sample written is [(0,0)], whatever the band-pass factor;
    the call has no error outcome. *)
Theorem C4_zero_magnitude_writes_zero
    (VImageDimension : nat) (self : PhaseCorrelationOperator)
    (fixed moving output : ImageType) (region : RegionType) (ind : IndexType) :
  In ind (regionIndices region) ->
  let F := GetPixel fixed ind in
  let M := GetPixel moving ind in
  let written :=
    GetPixel (DynamicThreadedGenerateData VImageDimension self fixed moving
                                          output region) ind in
  (forall factor, crossMagn F M = 0 -> normalized factor F M = Complex 0 0) /\
  (crossMagn F M = 0 -> written = Complex 0 0) /\
  (F = Complex 0 0 \/ M = Complex 0 0 ->
   crossMagn F M = 0 /\ written = Complex 0 0).
Proof.
  intros Hin F M written.
  assert (Hw : crossMagn F M = 0 -> written = Complex 0 0).
  { intros Hz. unfold written.
    rewrite DynamicThreadedGenerateData_pixel.
    destruct (in_dec Index_eq_dec ind (regionIndices region)) as [_ | Hn];
      [| now elim Hn].
    unfold sampleAt. now apply normalized_zero_magn. }
  repeat apply conj.
  - intros factor Hz. now apply normalized_zero_magn.
  - exact Hw.
  - intros H.
    assert (Hz : crossMagn F M = 0)
      by (destruct H; [now apply crossMagn_zero_l | now apply crossMagn_zero_r]).
    split; [exact Hz | exact (Hw Hz)].
Qed.

(** C10.  For every sample a call writes: its modulus is the band-pass
    factor when the cross-power magnitude is not zero, and [0] when it is;
    the factor lies in [[0,1]], so with control points
    [0 <= c0 < c1 < c2 < c3 <= 1] the modulus is at most [1]. *)
Theorem C10_output_modulus
    (VImageDimension : nat) (self : PhaseCorrelationOperator)
    (fixed moving output : ImageType) (region : RegionType) (ind : IndexType) :
  In ind (regionIndices region) ->
  let magn := crossMagn (GetPixel fixed ind) (GetPixel moving ind) in
  let factor := factorOf VImageDimension self output ind in
  let written :=
    GetPixel (DynamicThreadedGenerateData VImageDimension self fixed moving
                                          output region) ind in
  (magn <> 0 -> Cabs written = factor) /\
  (magn = 0 -> Cabs written = 0) /\
  (validPoints (m_BandPassControlPoints self) ->
   0 <= factor <= 1 /\ Cabs written <= 1).
Proof.
  intros Hin magn factor written.
  assert (Hf : 0 <= factor <= 1) by apply factorOf_range.
  assert (Hw : written =
               normalized factor (GetPixel fixed ind) (GetPixel moving ind)).
  { unfold written. rewrite DynamicThreadedGenerateData_pixel.
    destruct (in_dec Index_eq_dec ind (regionIndices region)) as [_ | Hn];
      [reflexivity | now elim Hn]. }
  assert (H1 : magn <> 0 -> Cabs written = factor).
  { intros Hm. rewrite Hw. apply Cabs_normalized; [lra | exact Hm]. }
  assert (H0 : magn = 0 -> Cabs written = 0).
  { intros Hm. rewrite Hw, normalized_zero_magn by exact Hm. apply Cabs_zero. }
  repeat apply conj; try assumption.
  intros _. split; [exact Hf |].
  destruct (Req_dec_T magn 0) as [Hm | Hm].
  - rewrite (H0 Hm). lra.
  - rewrite (H1 Hm). lra.
Qed.

(** C8.  The sample a run leaves at an index of the output region depends
    only on the two input samples at that index, the index, the output's
    geometry and the stored control points: two runs that agree on these
    leave the same sample there, whatever partitions of the region into
    sub-regions they work through and in whatever order. *)
Theorem C8_partition_independence
    (VImageDimension : nat) (self self' : PhaseCorrelationOperator)
    (fixed fixed' moving moving' output output' : ImageType)
    (whole : RegionType) (P Q : list RegionType) (j : IndexType) :
  partitionOf P whole -> partitionOf Q whole ->
  In j (regionIndices whole) ->
  m_BandPassControlPoints self = m_BandPassControlPoints self' ->
  GetPixel fixed j = GetPixel fixed' j ->
  GetPixel moving j = GetPixel moving' j ->
  GetLargestPossibleRegion output = GetLargestPossibleRegion output' ->
  GetPixel (runRegions VImageDimension self fixed moving output P) j =
  GetPixel (runRegions VImageDimension self' fixed' moving' output' Q) j.
Proof.
  intros [HP _] [HQ _] Hj Hpts Hf Hm Hg.
  rewrite !runRegions_pixel.
  replace (coveredb j P) with true
    by (symmetry; apply coveredb_spec, HP, Hj).
  replace (coveredb j Q) with true
    by (symmetry; apply coveredb_spec, HQ, Hj).
  unfold sampleAt, factorOf, radiusAt, maxDistOf.
  now rewrite Hpts, Hf, Hm, Hg.
Qed.

(** *** Instances on a 2 x 2 region *)

Lemma square_lines_cover :
  covers [Sample.lowerLine; Sample.upperLine] Sample.square.
Proof.
  intros j. split.
  - intros H. vm_compute in H.
    destruct H as [<- | [<- | [<- | [<- | []]]]];
      [ exists Sample.lowerLine | exists Sample.lowerLine
      | exists Sample.upperLine | exists Sample.upperLine ];
      split; vm_compute; tauto.
  - intros [r [Hr Hj]].
    destruct Hr as [<- | [<- | []]]; vm_compute in Hj |- *; tauto.
Qed.

Lemma square_lines_partition :
  partitionOf [Sample.lowerLine; Sample.upperLine] Sample.square.
Proof.
  split; [exact square_lines_cover |].
  repeat constructor.
  intros j [H1 H2]. vm_compute in H1, H2.
  destruct H1 as [<- | [<- | []]]; destruct H2 as [H | [H | []]];
    discriminate H.
Qed.

Lemma square_whole_partition : partitionOf [Sample.square] Sample.square.
Proof.
  split; [| repeat constructor].
  intros j. split.
  - intros H. exists Sample.square. split; [now left | exact H].
  - intros [r [[<- | []] Hj]]. exact Hj.
Qed.

Lemma origin_in_square : In [0; 0]%Z (regionIndices Sample.square).
Proof. vm_compute. tauto. Qed.

Lemma C4_zero_magnitude_writes_zero_witness :
  In [0; 0]%Z (regionIndices Sample.square) /\
  GetPixel (DynamicThreadedGenerateData 2 (New 0) Sample.zeros Sample.ones
                                        Sample.ones Sample.square) [0; 0]%Z
  = Complex 0 0.
Proof.
  split; [exact origin_in_square |].
  apply (C4_zero_magnitude_writes_zero 2 (New 0) Sample.zeros Sample.ones
           Sample.ones Sample.square [0; 0]%Z origin_in_square).
  left. reflexivity.
Defined.

Lemma default_points_valid (t : N) :
  validPoints (m_BandPassControlPoints (New t)).
Proof.
  apply validPoints_numbers. exists 0.05, 0.1, 0.5, 0.9.
  split; [reflexivity | lra].
Qed.

Lemma C10_output_modulus_witness :
  (In [0; 0]%Z (regionIndices Sample.square) /\
   validPoints (m_BandPassControlPoints (New 0))) /\
  Cabs (GetPixel (DynamicThreadedGenerateData 2 (New 0) Sample.ones Sample.ones
                                              Sample.ones Sample.square)
                 [0; 0]%Z) <= 1.
Proof.
  split; [split; [exact origin_in_square | exact (default_points_valid 0)] |].
  apply (C10_output_modulus 2 (New 0) Sample.ones Sample.ones Sample.ones
           Sample.square [0; 0]%Z origin_in_square).
  exact (default_points_valid 0).
Defined.

Lemma C8_partition_independence_witness :
  (partitionOf [Sample.square] Sample.square /\
   partitionOf [Sample.lowerLine; Sample.upperLine] Sample.square /\
   In [0; 0]%Z (regionIndices Sample.square)) /\
  GetPixel (runRegions 2 (New 0) Sample.ones Sample.ones Sample.zeros
                       [Sample.square]) [0; 0]%Z =
  GetPixel (runRegions 2 (New 0) Sample.ones Sample.ones Sample.zeros
                       [Sample.lowerLine; Sample.upperLine]) [0; 0]%Z.
Proof.
  split.
  - split; [exact square_whole_partition |].
    split; [exact square_lines_partition | exact origin_in_square].
  - apply (C8_partition_independence 2 (New 0) (New 0)
             Sample.ones Sample.ones Sample.ones Sample.ones
             Sample.zeros Sample.zeros Sample.square);
      [ exact square_whole_partition | exact square_lines_partition
      | exact origin_in_square | reflexivity | reflexivity | reflexivity
      | reflexivity ].
Defined.

(** ** The control points: [SetBandPassControlPoints] *)

Lemma FV_neqb_false (a b : FloatValue) :
  FV.neqb a b = false <-> exists x : R, a = Num x /\ b = Num x.
Proof.
  unfold FV.neqb. rewrite negb_false_iff. split.
  - destruct a as [x |], b as [y |]; cbn [FV.eqb]; try discriminate.
    intros H. apply Reqb_true in H. subst y. now exists x.
  - intros [x [-> ->]]. cbn [FV.eqb]. now apply Reqb_true.
Qed.

Lemma allNumbers_valid (p : BandPassPointsType) :
  validPoints p -> allNumbers p.
Proof.
  intros H. apply validPoints_numbers in H.
  destruct H as [a [b [c [d [-> _]]]]]. now repeat split.
Qed.

(** The guard of line 83 stays closed exactly on the stored tuple itself,
    and only when it holds no NaN. *)
Lemma BandPassPoints_neqb_false (a b : BandPassPointsType) :
  BandPassPoints_neqb a b = false <-> a = b /\ allNumbers a.
Proof.
  unfold BandPassPoints_neqb, allNumbers.
  rewrite negb_false_iff, !andb_true_iff, !negb_true_iff, !FV_neqb_false.
  destruct a as [a0 a1 a2 a3], b as [b0 b1 b2 b3]. cbn [pt0 pt1 pt2 pt3].
  split.
  - intros [[[[x0 [-> ->]] [x1 [-> ->]]] [x2 [-> ->]]] [x3 [-> ->]]].
    now repeat split.
  - intros [H [H0 [H1 [H2 H3]]]]. injection H as <- <- <- <-.
    destruct a0 as [x0 |], a1 as [x1 |], a2 as [x2 |], a3 as [x3 |];
      try discriminate.
    repeat split; eexists; split; reflexivity.
Qed.

Lemma BandPassPoints_neqb_differ (a b : BandPassPointsType) :
  a <> b -> BandPassPoints_neqb a b = true.
Proof.
  intros H. destruct (BandPassPoints_neqb a b) eqn:E; [reflexivity |].
  apply BandPassPoints_neqb_false in E. now elim H.
Qed.

(** When the guard opens, the five tests of lines 85-104 decide. *)
Lemma SetBandPassControlPoints_checked
    (self : PhaseCorrelationOperator) (points : BandPassPointsType) :
  BandPassPoints_neqb (m_BandPassControlPoints self) points = true ->
  (testsPass points = true /\
   SetBandPassControlPoints self points =
   (Modified (Operator points (m_MTime self)), None)) \/
  (testsPass points = false /\
   fst (SetBandPassControlPoints self points) = self /\
   snd (SetBandPassControlPoints self points) <> None).
Proof.
  intros Hne. unfold SetBandPassControlPoints, testsPass. rewrite Hne.
  destruct (FV.ltb (pt0 points) 0); [right; cbn; repeat split; easy |].
  destruct (FV.gtb (pt3 points) 1); [right; cbn; repeat split; easy |].
  destruct (FV.geb (pt0 points) (pt1 points));
    [right; cbn; repeat split; easy |].
  destruct (FV.geb (pt1 points) (pt2 points));
    [right; cbn; repeat split; easy |].
  destruct (FV.geb (pt2 points) (pt3 points));
    [right; cbn; repeat split; easy |].
  left. now split.
Qed.

Lemma SetBandPassControlPoints_same
    (self : PhaseCorrelationOperator) (points : BandPassPointsType) :
  BandPassPoints_neqb (m_BandPassControlPoints self) points = false ->
  SetBandPassControlPoints self points = (self, None).
Proof. intros E. unfold SetBandPassControlPoints. now rewrite E. Qed.

(** On a tuple of numbers the five tests pass exactly when it is valid; a
    valid tuple passes them. *)
Lemma testsPass_numbers (p : BandPassPointsType) :
  allNumbers p -> (testsPass p = true <-> validPoints p).
Proof.
  destruct p as [[a |] [b |] [c |] [d |]]; intros [H0 [H1 [H2 H3]]];
    try discriminate.
  rewrite validPoints_numbers. unfold testsPass, FV.gtb, FV.geb.
  cbn [pt0 pt1 pt2 pt3 FV.ltb FV.leb].
  rewrite !andb_true_iff, !negb_true_iff, !Rltb_false, !Rleb_false. split.
  - intros [[[[Ha Hd] Hab] Hbc] Hcd]. exists a, b, c, d.
    split; [reflexivity |]. repeat split; assumption.
  - intros [a' [b' [c' [d' [H Hv]]]]]. injection H as <- <- <- <-. tauto.
Qed.

Lemma testsPass_valid (p : BandPassPointsType) :
  validPoints p -> testsPass p = true.
Proof.
  intros H. apply testsPass_numbers; [now apply allNumbers_valid | exact H].
Qed.

(** C6.  The code on a tuple that holds NaN: a new object called with
    (0.05, NaN, 0.5, 0.9), a tuple that is not strictly increasing and
    differs from the stored one, throws nothing, stores the tuple and
    advances the modification time; a second call with the same tuple
    advances it again. *)
Theorem C6_NaN_tuple_is_stored :
  ~ (FV.lt (pt0 (BandPassPoints 0.05 NaN 0.5 0.9))
           (pt1 (BandPassPoints 0.05 NaN 0.5 0.9)) /\
     FV.lt (pt1 (BandPassPoints 0.05 NaN 0.5 0.9))
           (pt2 (BandPassPoints 0.05 NaN 0.5 0.9)) /\
     FV.lt (pt2 (BandPassPoints 0.05 NaN 0.5 0.9))
           (pt3 (BandPassPoints 0.05 NaN 0.5 0.9))) /\
  BandPassPoints 0.05 NaN 0.5 0.9 <> m_BandPassControlPoints (New 0) /\
  SetBandPassControlPoints (New 0) (BandPassPoints 0.05 NaN 0.5 0.9) =
  (Operator (BandPassPoints 0.05 NaN 0.5 0.9) 1, None) /\
  SetBandPassControlPoints (Operator (BandPassPoints 0.05 NaN 0.5 0.9) 1)
                           (BandPassPoints 0.05 NaN 0.5 0.9) =
  (Operator (BandPassPoints 0.05 NaN 0.5 0.9) 2, None).
Proof.
  assert (Hpass : testsPass (BandPassPoints 0.05 NaN 0.5 0.9) = true).
  { unfold testsPass, FV.gtb, FV.geb. cbn [pt0 pt1 pt2 pt3 FV.ltb FV.leb].
    replace (Rltb 0.05 0) with false by (symmetry; apply Rltb_false; lra).
    replace (Rltb 1 0.9) with false by (symmetry; apply Rltb_false; lra).
    replace (Rleb 0.9 0.5) with false by (symmetry; apply Rleb_false; lra).
    reflexivity. }
  assert (Hset : forall self,
             m_BandPassControlPoints self = BandPassPoints 0.05 0.1 0.5 0.9 \/
             m_BandPassControlPoints self = BandPassPoints 0.05 NaN 0.5 0.9 ->
             SetBandPassControlPoints self (BandPassPoints 0.05 NaN 0.5 0.9) =
             (Modified (Operator (BandPassPoints 0.05 NaN 0.5 0.9)
                                 (m_MTime self)), None)).
  { intros self Hs.
    assert (Hg : BandPassPoints_neqb (m_BandPassControlPoints self)
                   (BandPassPoints 0.05 NaN 0.5 0.9) = true).
    { destruct (BandPassPoints_neqb (m_BandPassControlPoints self)
                  (BandPassPoints 0.05 NaN 0.5 0.9)) eqn:E; [reflexivity |].
      apply BandPassPoints_neqb_false in E. destruct E as [E [_ [E1 _]]].
      rewrite E in E1. discriminate E1. }
    destruct (SetBandPassControlPoints_checked self _ Hg) as [[_ H] | [H _]];
      [exact H | congruence]. }
  repeat apply conj.
  - intros [H _]. discriminate H.
  - discriminate.
  - apply (Hset (New 0)). now left.
  - apply (Hset (Operator (BandPassPoints 0.05 NaN 0.5 0.9) 1)). now right.
Qed.

(** C7 as stated fails: a call with the tuple the object already stores
    succeeds and leaves the modification time as it was. *)
Lemma C7_counterexample :
  ~ (forall (self : PhaseCorrelationOperator) (points : BandPassPointsType),
        reachable self -> validPoints points ->
        snd (SetBandPassControlPoints self points) = None /\
        GetBandPassControlPoints (fst (SetBandPassControlPoints self points))
        = points /\
        (m_MTime self
         < m_MTime (fst (SetBandPassControlPoints self points)))%N).
Proof.
  intros H.
  destruct (H (New 0) (BandPassPoints 0.05 0.1 0.5 0.9) (reachable_New 0)
              (default_points_valid 0)) as [_ [_ Hlt]].
  assert (E : SetBandPassControlPoints (New 0) (BandPassPoints 0.05 0.1 0.5 0.9)
              = (New 0, None)).
  { apply SetBandPassControlPoints_same, BandPassPoints_neqb_false.
    split; [reflexivity | now repeat split]. }
  rewrite E in Hlt. cbn in Hlt. lia.
Qed.

(** C7, amended.  For every valid tuple the setter succeeds and the stored
    tuple is the argument afterwards; when the argument differs from the
    stored tuple, the tuple is replaced and the modification time advances;
    when it equals the stored tuple, the object is left as it was. *)
Theorem C7_valid_points_stored
    (self : PhaseCorrelationOperator) (points : BandPassPointsType) :
  validPoints points ->
  snd (SetBandPassControlPoints self points) = None /\
  GetBandPassControlPoints (fst (SetBandPassControlPoints self points))
  = points /\
  (points <> m_BandPassControlPoints self ->
   (m_MTime self < m_MTime (fst (SetBandPassControlPoints self points)))%N) /\
  (points = m_BandPassControlPoints self ->
   fst (SetBandPassControlPoints self points) = self).
Proof.
  intros Hv.
  destruct (BandPassPoints_neqb (m_BandPassControlPoints self) points) eqn:E.
  - destruct (SetBandPassControlPoints_checked self points E)
      as [[_ Heq] | [Hp _]];
      [| rewrite (testsPass_valid points Hv) in Hp; discriminate Hp].
    rewrite Heq. cbn.
    repeat apply conj; try reflexivity.
    + intros _. lia.
    + intros Hsame. exfalso. rewrite <- Hsame in E.
      assert (Hc : BandPassPoints_neqb points points = false)
        by (apply BandPassPoints_neqb_false;
            split; [reflexivity | now apply allNumbers_valid]).
      congruence.
  - rewrite (SetBandPassControlPoints_same self points E). cbn [fst snd].
    apply BandPassPoints_neqb_false in E. destruct E as [E _].
    unfold GetBandPassControlPoints.
    repeat apply conj; try easy. intros Hne. now elim Hne.
Qed.

Lemma C7_valid_points_stored_witness :
  validPoints (BandPassPoints 0.1 0.2 0.3 0.4) /\
  GetBandPassControlPoints
    (fst (SetBandPassControlPoints (New 0) (BandPassPoints 0.1 0.2 0.3 0.4)))
  = BandPassPoints 0.1 0.2 0.3 0.4.
Proof.
  assert (Hv : validPoints (BandPassPoints 0.1 0.2 0.3 0.4)).
  { apply validPoints_numbers. exists 0.1, 0.2, 0.3, 0.4.
    split; [reflexivity | lra]. }
  split; [exact Hv |].
  apply (C7_valid_points_stored (New 0) (BandPassPoints 0.1 0.2 0.3 0.4) Hv).
Defined.

(** ** The output geometry *)

Lemma nth_map_seq {A : Type} (f : nat -> A) (n k : nat) (d : A) :
  (k < n)%nat -> nth k (map f (seq 0 n)) d = f k.
Proof.
  intros H. rewrite (nth_indep _ d (f 0%nat)) by (now rewrite length_map, length_seq).
  rewrite map_nth, seq_nth by exact H. reflexivity.
Qed.

Lemma at_map_seq (f : nat -> Z) (n k : nat) :
  (k < n)%nat -> at_ (map f (seq 0 n)) k = f k.
Proof. apply nth_map_seq. Qed.

Lemma atR_map_seq (f : nat -> R) (n k : nat) :
  (k < n)%nat -> atR (map f (seq 0 n)) k = f k.
Proof. apply nth_map_seq. Qed.

Lemma Rgeb_select_max (x y : R) : (if Rgeb x y then x else y) = Rmax x y.
Proof.
  unfold Rgeb, Rmax.
  destruct (Rleb y x) eqn:E; destruct (Rle_dec x y) as [H | H];
    try apply Rleb_true in E; try apply Rleb_false in E; lra.
Qed.

Lemma Zleb_select_min (x y : Z) : (if (x <=? y)%Z then x else y) = Z.min x y.
Proof. destruct (Z.leb_spec x y); lia. Qed.

(** C5.  With both inputs and the output present, on every axis [k] the
    output spacing is the larger of the two input spacings, the output size
    the smaller of the two input sizes, and the output start index the
    fixed input's; fixed size (64,64), spacing (1,1) with moving size
    (32,64), spacing (2,1) gives size (32,64), spacing (2,1) and the fixed
    input's start index. *)
Theorem C5_output_geometry :
  (forall (ImageDimension : nat) (fixed moving output : ImageType),
      exists out : ImageType,
        GenerateOutputInformation ImageDimension
          (Some fixed) (Some moving) (Some output) = Some out /\
        forall k : nat, (k < ImageDimension)%nat ->
          atR (GetSpacing out) k =
            Rmax (atR (GetSpacing fixed) k) (atR (GetSpacing moving) k) /\
          at_ (GetSize (GetLargestPossibleRegion out)) k =
            Z.min (at_ (GetSize (GetLargestPossibleRegion fixed)) k)
                  (at_ (GetSize (GetLargestPossibleRegion moving)) k) /\
          at_ (GetIndex (GetLargestPossibleRegion out)) k =
            at_ (GetIndex (GetLargestPossibleRegion fixed)) k) /\
  (forall (i0 i1 : IndexValueType) (movingIndex : IndexType)
          (fixedX movingX outputX : option SizeValueType)
          (fixedPixels movingPixels : PixelContainer) (output : ImageType),
      exists out : ImageType,
        GenerateOutputInformation 2
          (Some (Image [1; 1] (Region [i0; i1] [64; 64]%Z) fixedX fixedPixels))
          (Some (Image [2; 1] (Region movingIndex [32; 64]%Z) movingX
                       movingPixels))
          (Some output) = Some out /\
        GetSize (GetLargestPossibleRegion out) = [32; 64]%Z /\
        GetSpacing out = [2; 1] /\
        GetIndex (GetLargestPossibleRegion out) = [i0; i1]).
Proof.
  split.
  - intros n fixed moving output. eexists. split; [reflexivity |].
    intros k Hk. cbn [GetSpacing GetLargestPossibleRegion GetSize GetIndex].
    unfold computeOutputSpacing, computeOutputSize, computeOutputStartIndex.
    rewrite atR_map_seq, !at_map_seq by exact Hk.
    rewrite Rgeb_select_max, Zleb_select_min. now repeat split.
  - intros. eexists. split; [reflexivity |].
    cbn [GetSpacing GetLargestPossibleRegion GetSize GetIndex].
    unfold computeOutputSpacing, computeOutputSize, computeOutputStartIndex.
    cbn [seq map]. rewrite !Rgeb_select_max. unfold atR, at_. cbn [nth].
    rewrite Rmax_right by lra. rewrite Rmax_left by lra.
    now repeat split.
Qed.

Lemma C5_output_geometry_witness :
  (1 < 2)%nat /\
  exists out : ImageType,
    GenerateOutputInformation 2 (Some Sample.ones) (Some Sample.zeros)
                              (Some Sample.zeros) = Some out /\
    at_ (GetSize (GetLargestPossibleRegion out)) 1 = 2%Z.
Proof.
  split; [lia |].
  destruct (proj1 C5_output_geometry 2%nat Sample.ones Sample.zeros
              Sample.zeros) as [out [Hout Hk]].
  exists out. split; [exact Hout |].
  destruct (Hk 1%nat ltac:(lia)) as [_ [Hsize _]].
  rewrite Hsize. reflexivity.
Defined.

(** ** The radius and the reference radius *)

Lemma fold_left_plus_IZR (g : nat -> Z) (l : list nat) (a : Z) :
  fold_left (fun acc d => acc + IZR (g d)) l (IZR a) =
  IZR (fold_left (fun acc d => (acc + g d)%Z) l a).
Proof.
  revert a. induction l as [| d l IH]; intros a; [reflexivity |].
  cbn [fold_left]. rewrite <- plus_IZR. apply IH.
Qed.

Lemma fold_left_plus_quarter (g : nat -> Z) (l : list nat) (a : Z) :
  fold_left (fun acc d => acc + IZR (g d) / 4) l (IZR a / 4) =
  IZR (fold_left (fun acc d => (acc + g d)%Z) l a) / 4.
Proof.
  revert a. induction l as [| d l IH]; intros a; [reflexivity |].
  cbn [fold_left]. rewrite <- IH. f_equal. rewrite plus_IZR. lra.
Qed.

(** The radius is the square root of the integer sum of squares. *)
Lemma computeDistFrom0_sqDistZ (n : nat) (size : SizeType)
    (ind ind0 : IndexType) :
  computeDistFrom0 n size ind ind0 = sqrt (IZR (sqDistZ n size ind ind0)).
Proof.
  unfold computeDistFrom0, sqDistZ. f_equal.
  apply (fold_left_plus_IZR
           (fun d => wrapS (foldedInd size ind ind0 d
                            * foldedInd size ind ind0 d))).
Qed.

Lemma computeMaxDist_maxDistSq4Z (n : nat) (size : SizeType) :
  computeMaxDist n size = sqrt (IZR (maxDistSq4Z n size) / 4).
Proof.
  unfold computeMaxDist, maxDistSq4Z. f_equal.
  rewrite <- (fold_left_plus_quarter
                (fun d => wrapU (at_ size d * at_ size d))).
  f_equal. rewrite mult_IZR. lra.
Qed.

(** C1.  The code at an axis of odd size: with output size (2,9) and start
    index (0,0), the offsets 4 and 9 - 4 = 5 on axis 1 are both in the
    region, and the radius is 5 at index (0,4) but 4 at index (0,5). *)
Theorem C1_radius_differs_across_wrap_odd_size :
  In [0; 4]%Z (regionIndices (Region [0; 0]%Z [2; 9]%Z)) /\
  In [0; 5]%Z (regionIndices (Region [0; 0]%Z [2; 9]%Z)) /\
  computeDistFrom0 2 [2; 9]%Z [0; 4]%Z [0; 0]%Z = 5 /\
  computeDistFrom0 2 [2; 9]%Z [0; 5]%Z [0; 0]%Z = 4 /\
  computeDistFrom0 2 [2; 9]%Z [0; 4]%Z [0; 0]%Z <>
  computeDistFrom0 2 [2; 9]%Z [0; 5]%Z [0; 0]%Z.
Proof.
  assert (H5 : computeDistFrom0 2 [2; 9]%Z [0; 4]%Z [0; 0]%Z = 5).
  { rewrite computeDistFrom0_sqDistZ.
    replace (sqDistZ 2 [2; 9]%Z [0; 4]%Z [0; 0]%Z) with (5 * 5)%Z
      by (vm_compute; reflexivity).
    rewrite mult_IZR. apply sqrt_square. lra. }
  assert (H4 : computeDistFrom0 2 [2; 9]%Z [0; 5]%Z [0; 0]%Z = 4).
  { rewrite computeDistFrom0_sqDistZ.
    replace (sqDistZ 2 [2; 9]%Z [0; 5]%Z [0; 0]%Z) with (4 * 4)%Z
      by (vm_compute; reflexivity).
    rewrite mult_IZR. apply sqrt_square. lra. }
  repeat apply conj; try assumption.
  - vm_compute. tauto.
  - vm_compute. tauto.
  - rewrite H5, H4. lra.
Qed.

(** C2.  The code at an axis of odd size: with output size (2,9) and start
    index (0,0), the index (1,4) is in the region, its radius is the square
    root of 26, and the reference radius [maxDist] is the square root of
    24.25, which is smaller. *)
Theorem C2_radius_exceeds_maxDist_odd_size :
  In [1; 4]%Z (regionIndices (Region [0; 0]%Z [2; 9]%Z)) /\
  computeDistFrom0 2 [2; 9]%Z [1; 4]%Z [0; 0]%Z = sqrt 26 /\
  computeMaxDist 2 [2; 9]%Z = sqrt (97 / 4) /\
  computeMaxDist 2 [2; 9]%Z < computeDistFrom0 2 [2; 9]%Z [1; 4]%Z [0; 0]%Z.
Proof.
  assert (Hd : computeDistFrom0 2 [2; 9]%Z [1; 4]%Z [0; 0]%Z = sqrt 26).
  { rewrite computeDistFrom0_sqDistZ.
    replace (sqDistZ 2 [2; 9]%Z [1; 4]%Z [0; 0]%Z) with 26%Z
      by (vm_compute; reflexivity).
    reflexivity. }
  assert (Hm : computeMaxDist 2 [2; 9]%Z = sqrt (97 / 4)).
  { rewrite computeMaxDist_maxDistSq4Z.
    replace (maxDistSq4Z 2 [2; 9]%Z) with 97%Z by (vm_compute; reflexivity).
    reflexivity. }
  repeat apply conj; try assumption.
  - vm_compute. tauto.
  - rewrite Hd, Hm. apply sqrt_lt_1; lra.
Qed.

(** *** Axes of even size

    On a wrapped axis of even size the folded distance is the same at the
    offsets [raw] and [size - raw] and at most half the size; the two
    properties that fail above hold there. *)

Lemma foldedInd_small (size : SizeType) (ind ind0 : IndexType) (d : nat) :
  (0 <= at_ ind d - at_ ind0 d < at_ size d)%Z ->
  (at_ size d < 2 ^ 62)%Z ->
  foldedInd size ind ind0 d =
  if (at_ ind d - at_ ind0 d >=? at_ size d / 2)%Z
  then (at_ size d - (at_ ind d - at_ ind0 d))%Z
  else (at_ ind d - at_ ind0 d)%Z.
Proof.
  intros Hraw Hs. unfold foldedInd.
  set (raw := (at_ ind d - at_ ind0 d)%Z) in *.
  set (s := at_ size d) in *.
  assert (Hhalf : (0 <= s / 2 <= s)%Z) by (Z.div_mod_to_equations; lia).
  rewrite (wrapS_small raw) by (unfold half_modulus; lia).
  rewrite (wrapU_small (s / 2)) by (unfold modulus; lia).
  rewrite (wrapS_small (s / 2)) by (unfold half_modulus; lia).
  rewrite (wrapU_small raw) by (unfold modulus; lia).
  rewrite (wrapU_small (s - raw)) by (unfold modulus; lia).
  rewrite (wrapS_small (s - raw)) by (unfold half_modulus; lia).
  reflexivity.
Qed.

Lemma fold_even_symmetric (s raw : Z) :
  Z.even s = true -> (0 < raw < s)%Z ->
  (if (raw >=? s / 2)%Z then (s - raw)%Z else raw) =
  (if (s - raw >=? s / 2)%Z then (s - (s - raw))%Z else (s - raw)%Z).
Proof.
  intros He Hr. apply Z.even_spec in He. destruct He as [m ->].
  replace (2 * m / 2)%Z with m by (Z.div_mod_to_equations; lia).
  rewrite !Z.geb_leb.
  destruct (Z.leb_spec m raw); destruct (Z.leb_spec m (2 * m - raw)); lia.
Qed.

Lemma fold_even_bound (s raw : Z) :
  Z.even s = true -> (0 <= raw < s)%Z ->
  (0 <= 2 * (if (raw >=? s / 2)%Z then (s - raw)%Z else raw) <= s)%Z.
Proof.
  intros He Hr. apply Z.even_spec in He. destruct He as [m ->].
  replace (2 * m / 2)%Z with m by (Z.div_mod_to_equations; lia).
  rewrite Z.geb_leb. destruct (Z.leb_spec m raw); lia.
Qed.

Lemma fold_left_plus_ext (g h : nat -> Z) (l : list nat) (a : Z) :
  (forall d, In d l -> g d = h d) ->
  fold_left (fun acc d => (acc + g d)%Z) l a =
  fold_left (fun acc d => (acc + h d)%Z) l a.
Proof.
  revert a. induction l as [| d l IH]; intros a H; [reflexivity |].
  cbn [fold_left]. rewrite (H d) by now left.
  apply IH. intros d' Hd'. apply H. now right.
Qed.

Lemma fold_left_plus_le (g h : nat -> Z) (l : list nat) (a b : Z) :
  (4 * a <= b)%Z ->
  (forall d, In d l -> (4 * g d <= h d)%Z) ->
  (4 * fold_left (fun acc d => (acc + g d)%Z) l a <=
   fold_left (fun acc d => (acc + h d)%Z) l b)%Z.
Proof.
  revert a b. induction l as [| d l IH]; intros a b Hab H; [exact Hab |].
  cbn [fold_left]. apply IH.
  - specialize (H d (or_introl eq_refl)). lia.
  - intros d' Hd'. apply H. now right.
Qed.

(** X23.  Wrap symmetry on an axis of even size: two indices that differ
    only on a wrapped axis [k], by the offsets [raw] and [size[k] - raw],
    have the same radius. *)
Lemma radius_wrap_symmetric_even_size
    (n : nat) (size : SizeType) (ind ind' ind0 : IndexType) (k : nat) :
  (1 <= k < n)%nat ->
  (forall d, d <> k -> at_ ind' d = at_ ind d) ->
  (at_ ind' k - at_ ind0 k = at_ size k - (at_ ind k - at_ ind0 k))%Z ->
  (0 < at_ ind k - at_ ind0 k < at_ size k)%Z ->
  (at_ size k < 2 ^ 62)%Z ->
  Z.even (at_ size k) = true ->
  computeDistFrom0 n size ind' ind0 = computeDistFrom0 n size ind ind0.
Proof.
  intros Hk Hsame Hwrap Hraw Hs He.
  rewrite !computeDistFrom0_sqDistZ. do 2 f_equal.
  unfold sqDistZ. rewrite (Hsame 0%nat) by lia.
  apply (fold_left_plus_ext
           (fun d => wrapS (foldedInd size ind' ind0 d
                            * foldedInd size ind' ind0 d))
           (fun d => wrapS (foldedInd size ind ind0 d
                            * foldedInd size ind ind0 d))).
  intros d _. destruct (Nat.eq_dec d k) as [-> | Hne].
  - rewrite !foldedInd_small by lia. rewrite Hwrap.
    now rewrite <- fold_even_symmetric by assumption.
  - unfold foldedInd. now rewrite (Hsame d Hne).
Qed.

(** X24.  The radius stays in [[0, maxDist]] when every wrapped axis has an
    even size. *)
Lemma radius_le_maxDist_even_sizes
    (n : nat) (size : SizeType) (ind ind0 : IndexType) :
  (forall d, (d < n)%nat ->
     (0 <= at_ ind d - at_ ind0 d < at_ size d)%Z /\ (at_ size d < 2 ^ 31)%Z) ->
  (forall d, (1 <= d < n)%nat -> Z.even (at_ size d) = true) ->
  (1 <= n)%nat ->
  0 <= computeDistFrom0 n size ind ind0 <= computeMaxDist n size.
Proof.
  intros Hin He Hn.
  rewrite computeDistFrom0_sqDistZ, computeMaxDist_maxDistSq4Z.
  split; [apply sqrt_pos |].
  apply sqrt_le_1_alt.
  assert (H4 : (4 * sqDistZ n size ind ind0 <= maxDistSq4Z n size)%Z).
  { unfold sqDistZ, maxDistSq4Z.
    apply (fold_left_plus_le
             (fun d => wrapS (foldedInd size ind ind0 d
                              * foldedInd size ind ind0 d))
             (fun d => wrapU (at_ size d * at_ size d))).
    - destruct (Hin 0%nat ltac:(lia)) as [H0 Hs0].
      rewrite (wrapS_small (at_ ind 0 - at_ ind0 0))
        by (unfold half_modulus; lia).
      rewrite wrapS_small by (unfold half_modulus; nia).
      rewrite wrapU_small by (unfold modulus; nia).
      nia.
    - intros d Hd. unfold higherAxes in Hd. apply in_seq in Hd.
      destruct (Hin d ltac:(lia)) as [Hr Hs].
      pose proof (fold_even_bound (at_ size d) (at_ ind d - at_ ind0 d)
                    (He d ltac:(lia)) Hr) as Hb.
      rewrite foldedInd_small by lia.
      set (f := if (_ >=? _)%Z then _ else _) in *.
      rewrite wrapS_small by (unfold half_modulus; nia).
      rewrite wrapU_small by (unfold modulus; nia).
      nia. }
  apply IZR_le in H4. rewrite mult_IZR in H4. lra.
Qed.

(** * Further properties of the code *)

(** ** Sequences of calls of the setter *)

Lemma validPointsb_true (p : BandPassPointsType) :
  validPointsb p = true <-> validPoints p.
Proof.
  unfold validPointsb, validPoints, FV.le, FV.lt.
  rewrite !andb_true_iff. tauto.
Qed.

Lemma allNumbers_self_equal (p : BandPassPointsType) :
  allNumbers p -> BandPassPoints_neqb p p = false.
Proof. intros H. apply BandPassPoints_neqb_false. now split. Qed.

(** What a call with a tuple of numbers stores: the argument when it is
    valid, the tuple stored before when it is not. *)
Lemma SetBandPassControlPoints_stored
    (self : PhaseCorrelationOperator) (points : BandPassPointsType) :
  allNumbers points ->
  m_BandPassControlPoints (fst (SetBandPassControlPoints self points)) =
  if validPointsb points then points else m_BandPassControlPoints self.
Proof.
  intros Hn.
  destruct (BandPassPoints_neqb (m_BandPassControlPoints self) points) eqn:E.
  - destruct (SetBandPassControlPoints_checked self points E)
      as [[Hp Heq] | [Hp [Hfst _]]].
    + apply (testsPass_numbers points Hn), validPointsb_true in Hp.
      now rewrite Heq, Hp.
    + rewrite Hfst. destruct (validPointsb points) eqn:Eb; [| reflexivity].
      apply validPointsb_true, (testsPass_numbers points Hn) in Eb.
      congruence.
  - rewrite (SetBandPassControlPoints_same self points E). cbn [fst].
    apply BandPassPoints_neqb_false in E. destruct E as [E _].
    now destruct (validPointsb points).
Qed.

Lemma setAll_valid (self : PhaseCorrelationOperator)
    (calls : list BandPassPointsType) :
  validPoints (m_BandPassControlPoints self) ->
  Forall allNumbers calls ->
  validPoints (m_BandPassControlPoints (setAll self calls)).
Proof.
  revert self. induction calls as [| p calls IH]; intros self Hv Hn;
    [exact Hv |].
  inversion Hn as [| p' calls' Hp Hrest]; subst.
  unfold setAll in *. cbn [fold_left]. apply IH; [| exact Hrest].
  rewrite SetBandPassControlPoints_stored by exact Hp.
  destruct (validPointsb p) eqn:E; [now apply validPointsb_true | exact Hv].
Qed.

(** X1.  Whatever calls of the setter with tuples of numbers a new object
    receives, valid or rejected, the tuple it stores satisfies
    [0 <= c0 < c1 < c2 < c3 <= 1].  (A tuple holding NaN breaks this: see
    C6.) *)
Theorem X1_stored_points_always_valid
    (t : N) (calls : list BandPassPointsType) :
  Forall allNumbers calls ->
  validPoints (GetBandPassControlPoints (setAll (New t) calls)).
Proof.
  intros Hn. apply setAll_valid; [apply default_points_valid | exact Hn].
Qed.

Lemma sample_calls_are_numbers :
  Forall allNumbers
         [BandPassPoints 0.5 0.2 0.7 0.9; BandPassPoints 0.1 0.2 0.3 0.4].
Proof. repeat constructor. Qed.

Lemma X1_stored_points_always_valid_witness :
  Forall allNumbers
         [BandPassPoints 0.5 0.2 0.7 0.9; BandPassPoints 0.1 0.2 0.3 0.4] /\
  validPoints
    (GetBandPassControlPoints
       (setAll (New 0) [BandPassPoints 0.5 0.2 0.7 0.9;
                        BandPassPoints 0.1 0.2 0.3 0.4])).
Proof.
  split; [exact sample_calls_are_numbers |].
  apply (X1_stored_points_always_valid 0 _ sample_calls_are_numbers).
Defined.

(** X2.  A call of the setter never moves the modification time back, and
    advances it whenever the stored tuple changes; for an argument that
    holds no NaN it advances it only then: a rejected call and a call with
    the stored tuple leave it as it was. *)
Theorem X2_modified_iff_points_changed
    (self : PhaseCorrelationOperator) (points : BandPassPointsType) :
  (m_MTime self <= m_MTime (fst (SetBandPassControlPoints self points)))%N /\
  (m_BandPassControlPoints (fst (SetBandPassControlPoints self points))
   <> m_BandPassControlPoints self ->
   (m_MTime self < m_MTime (fst (SetBandPassControlPoints self points)))%N) /\
  (allNumbers points ->
   (m_MTime self < m_MTime (fst (SetBandPassControlPoints self points)))%N ->
   m_BandPassControlPoints (fst (SetBandPassControlPoints self points))
   <> m_BandPassControlPoints self).
Proof.
  destruct (BandPassPoints_neqb (m_BandPassControlPoints self) points) eqn:E.
  - destruct (SetBandPassControlPoints_checked self points E)
      as [[_ Heq] | [_ [Hfst _]]].
    + rewrite Heq. cbn. split; [lia |]. split; [intros _; lia |].
      intros Hn _ Hsame. rewrite Hsame in E.
      rewrite allNumbers_self_equal in E; [discriminate E |].
      now rewrite <- Hsame.
    + rewrite Hfst. split; [lia |]. split; [intros H; now elim H |].
      intros _ H. lia.
  - rewrite (SetBandPassControlPoints_same self points E). cbn [fst].
    split; [lia |]. split; [intros H; now elim H |]. intros _ H. lia.
Qed.

Lemma X2_modified_iff_points_changed_witness :
  allNumbers (BandPassPoints 0.5 0.2 0.7 0.9) /\
  ((m_MTime (New 0)
    < m_MTime (fst (SetBandPassControlPoints
                      (New 0) (BandPassPoints 0.5 0.2 0.7 0.9)%R)))%N ->
   m_BandPassControlPoints
     (fst (SetBandPassControlPoints (New 0) (BandPassPoints 0.5 0.2 0.7 0.9)))
   <> m_BandPassControlPoints (New 0)).
Proof.
  assert (Hn : allNumbers (BandPassPoints 0.5 0.2 0.7 0.9))
    by (now repeat split).
  split; [exact Hn |].
  apply (X2_modified_iff_points_changed (New 0)
           (BandPassPoints 0.5 0.2 0.7 0.9)).
  exact Hn.
Defined.

(** X3.  Repeating a call of the setter with the same tuple of numbers
    changes nothing more: the object after the second call, its
    modification time included, is the object after the first.  (With a
    tuple holding NaN the second call advances the time again: see C6.) *)
Theorem X3_setter_idempotent
    (self : PhaseCorrelationOperator) (points : BandPassPointsType) :
  allNumbers points ->
  fst (SetBandPassControlPoints
         (fst (SetBandPassControlPoints self points)) points) =
  fst (SetBandPassControlPoints self points).
Proof.
  intros Hn.
  destruct (BandPassPoints_neqb (m_BandPassControlPoints self) points) eqn:E.
  - destruct (SetBandPassControlPoints_checked self points E)
      as [[_ Heq] | [_ [Hfst _]]].
    + rewrite Heq. cbn [fst].
      rewrite SetBandPassControlPoints_same; [reflexivity |].
      cbn [Modified m_BandPassControlPoints].
      now apply allNumbers_self_equal.
    + now rewrite !Hfst.
  - rewrite (SetBandPassControlPoints_same self points E). cbn [fst].
    now rewrite (SetBandPassControlPoints_same self points E).
Qed.

Lemma X3_setter_idempotent_witness :
  allNumbers (BandPassPoints 0.1 0.2 0.3 0.4) /\
  fst (SetBandPassControlPoints
         (fst (SetBandPassControlPoints (New 0)
                 (BandPassPoints 0.1 0.2 0.3 0.4)))
         (BandPassPoints 0.1 0.2 0.3 0.4)) =
  fst (SetBandPassControlPoints (New 0) (BandPassPoints 0.1 0.2 0.3 0.4)).
Proof.
  assert (Hn : allNumbers (BandPassPoints 0.1 0.2 0.3 0.4))
    by (now repeat split).
  split; [exact Hn |].
  apply (X3_setter_idempotent (New 0) (BandPassPoints 0.1 0.2 0.3 0.4) Hn).
Defined.

(** X4.  After any sequence of calls of the setter with tuples of numbers,
    the stored tuple is the argument of the last call with a valid tuple,
    and the tuple stored before the sequence when no call had one:
    rejected calls leave no trace. *)
Theorem X4_last_valid_call_wins
    (self : PhaseCorrelationOperator) (calls : list BandPassPointsType) :
  Forall allNumbers calls ->
  GetBandPassControlPoints (setAll self calls) =
  lastValid (m_BandPassControlPoints self) calls.
Proof.
  unfold GetBandPassControlPoints, setAll, lastValid.
  revert self. induction calls as [| p calls IH]; intros self Hn;
    [reflexivity |].
  inversion Hn as [| p' calls' Hp Hrest]; subst.
  cbn [fold_left]. rewrite IH by exact Hrest.
  now rewrite SetBandPassControlPoints_stored by exact Hp.
Qed.

Lemma X4_last_valid_call_wins_witness :
  Forall allNumbers
         [BandPassPoints 0.5 0.2 0.7 0.9; BandPassPoints 0.1 0.2 0.3 0.4] /\
  GetBandPassControlPoints
    (setAll (New 0) [BandPassPoints 0.5 0.2 0.7 0.9;
                     BandPassPoints 0.1 0.2 0.3 0.4]) =
  lastValid (m_BandPassControlPoints (New 0))
            [BandPassPoints 0.5 0.2 0.7 0.9; BandPassPoints 0.1 0.2 0.3 0.4].
Proof.
  split; [exact sample_calls_are_numbers |].
  apply (X4_last_valid_call_wins (New 0) _ sample_calls_are_numbers).
Defined.

Lemma FV_lt_numbers (x y : R) : FV.lt x y <-> x < y.
Proof. unfold FV.lt. cbn [FV.ltb]. apply Rltb_true. Qed.

(** X27.  An exception of the setter leaves the object as it was, whatever
    the argument; and on an object whose stored tuple is valid, a call with
    a tuple of numbers throws exactly when [c0 < 0], or [c3 > 1], or the
    tuple is not strictly increasing. *)
Theorem X27_numbers_rejected_iff_invalid
    (self : PhaseCorrelationOperator) (points : BandPassPointsType) :
  (snd (SetBandPassControlPoints self points) <> None ->
   fst (SetBandPassControlPoints self points) = self) /\
  (validPoints (m_BandPassControlPoints self) -> allNumbers points ->
   (snd (SetBandPassControlPoints self points) <> None <->
    (FV.lt (pt0 points) 0 \/ FV.lt 1 (pt3 points) \/
     ~ (FV.lt (pt0 points) (pt1 points) /\ FV.lt (pt1 points) (pt2 points)
        /\ FV.lt (pt2 points) (pt3 points))))).
Proof.
  assert (Hinvalid : allNumbers points ->
            (~ validPoints points <->
             (FV.lt (pt0 points) 0 \/ FV.lt 1 (pt3 points) \/
              ~ (FV.lt (pt0 points) (pt1 points)
                 /\ FV.lt (pt1 points) (pt2 points)
                 /\ FV.lt (pt2 points) (pt3 points))))).
  { destruct points as [[a |] [b |] [c |] [d |]]; intros [H0 [H1 [H2 H3]]];
      try discriminate.
    cbn [pt0 pt1 pt2 pt3]. rewrite validPoints_numbers, !FV_lt_numbers.
    split.
    - intros Hnv. destruct (Rlt_dec a 0) as [Ha | Ha]; [now left |].
      destruct (Rlt_dec 1 d) as [Hd | Hd]; [right; now left |].
      right; right. intros [Hab [Hbc Hcd]]. apply Hnv.
      exists a, b, c, d. split; [reflexivity |]. lra.
    - intros H [a' [b' [c' [d' [E Hv]]]]]. injection E as <- <- <- <-.
      destruct H as [H | [H | H]]; [lra | lra | apply H; lra]. }
  destruct (BandPassPoints_neqb (m_BandPassControlPoints self) points) eqn:E.
  - destruct (SetBandPassControlPoints_checked self points E)
      as [[Hp Heq] | [Hp [Hfst Hsnd]]].
    + rewrite Heq. cbn [fst snd]. split; [intros H; now elim H |].
      intros _ Hn. rewrite <- (Hinvalid Hn).
      apply (testsPass_numbers points Hn) in Hp.
      split; intros H; [now elim H | now elim (H Hp)].
    + split; [intros _; exact Hfst |].
      intros _ Hn. rewrite <- (Hinvalid Hn).
      split; intros _; [| exact Hsnd].
      intros Hv. apply (testsPass_numbers points Hn) in Hv. congruence.
  - rewrite (SetBandPassControlPoints_same self points E). cbn [fst snd].
    split; [intros H; now elim H |].
    intros Hv Hn. rewrite <- (Hinvalid Hn).
    apply BandPassPoints_neqb_false in E. destruct E as [E _]. subst points.
    split; intros H; [now elim H | now elim (H Hv)].
Qed.

Lemma X27_numbers_rejected_iff_invalid_witness :
  (validPoints (m_BandPassControlPoints (New 0)) /\
   allNumbers (BandPassPoints 0.5 0.2 0.7 0.9)) /\
  snd (SetBandPassControlPoints (New 0) (BandPassPoints 0.5 0.2 0.7 0.9))
  <> None.
Proof.
  assert (Hn : allNumbers (BandPassPoints 0.5 0.2 0.7 0.9))
    by (now repeat split).
  split; [split; [exact (default_points_valid 0) | exact Hn] |].
  apply (proj2 (X27_numbers_rejected_iff_invalid (New 0)
                  (BandPassPoints 0.5 0.2 0.7 0.9))
           (default_points_valid 0) Hn).
  right; right. intros [H _]. apply FV_lt_numbers in H. lra.
Defined.

(** ** The normalised cross-power term, continued *)

Lemma written_sample
    (VImageDimension : nat) (self : PhaseCorrelationOperator)
    (fixed moving output : ImageType) (region : RegionType) (ind : IndexType) :
  In ind (regionIndices region) ->
  GetPixel (DynamicThreadedGenerateData VImageDimension self fixed moving
                                        output region) ind =
  normalized (factorOf VImageDimension self output ind)
             (GetPixel fixed ind) (GetPixel moving ind).
Proof.
  intros Hin. rewrite DynamicThreadedGenerateData_pixel.
  destruct (in_dec Index_eq_dec ind (regionIndices region)) as [_ | Hn];
    [reflexivity | now elim Hn].
Qed.

Lemma normalized_self (factor : PixelType) (f : ComplexType) :
  f <> Complex 0 0 -> normalized factor f f = Complex factor 0.
Proof.
  unfold PixelType in *. intros Hf. destruct f as [re im].
  assert (Hpos : 0 < re * re + im * im).
  { destruct (Req_dec_T re 0) as [-> | Hre]; [| nra].
    destruct (Req_dec_T im 0) as [-> | Him]; [now elim Hf | nra]. }
  assert (Hm : crossMagn (Complex re im) (Complex re im) = re * re + im * im).
  { unfold crossMagn, crossReal, crossImag. cbn [real imag].
    replace (im * re - re * im) with 0 by ring.
    rewrite Rmult_0_l, Rplus_0_r. apply sqrt_square. lra. }
  rewrite normalized_nonzero_magn by (rewrite Hm; lra).
  rewrite Hm. unfold crossReal, crossImag. cbn [real imag].
  f_equal; unfold PixelType; field; lra.
Qed.

(** X5.  Where the fixed and the moving sample are the same non-zero
    value, the sample written is the band-pass factor itself, with
    imaginary part zero. *)
Theorem X5_self_correlation_writes_factor
    (VImageDimension : nat) (self : PhaseCorrelationOperator)
    (fixed moving output : ImageType) (region : RegionType) (ind : IndexType) :
  In ind (regionIndices region) ->
  GetPixel fixed ind = GetPixel moving ind ->
  GetPixel fixed ind <> Complex 0 0 ->
  GetPixel (DynamicThreadedGenerateData VImageDimension self fixed moving
                                        output region) ind =
  Complex (factorOf VImageDimension self output ind) 0.
Proof.
  intros Hin Heq Hnz. rewrite written_sample by exact Hin.
  rewrite <- Heq. now apply normalized_self.
Qed.

Lemma X5_self_correlation_writes_factor_witness :
  In [0; 0]%Z (regionIndices Sample.square) /\
  GetPixel (DynamicThreadedGenerateData 2 (New 0) Sample.ones Sample.ones
                                        Sample.zeros Sample.square) [0; 0]%Z =
  Complex (factorOf 2 (New 0) Sample.zeros [0; 0]%Z) 0.
Proof.
  split; [exact origin_in_square |].
  apply (X5_self_correlation_writes_factor 2 (New 0) Sample.ones Sample.ones
           Sample.zeros Sample.square [0; 0]%Z origin_in_square eq_refl).
  cbn. intros H. injection H as H. lra.
Defined.

Lemma crossMagn_scale (a b : R) (f m : ComplexType) :
  0 < a -> 0 < b ->
  crossMagn (Cscale a f) (Cscale b m) = a * b * crossMagn f m.
Proof.
  intros Ha Hb. unfold crossMagn, crossReal, crossImag, Cscale.
  cbn [real imag].
  set (re := real f * real m + imag f * imag m).
  set (im := imag f * real m - real f * imag m).
  replace ((a * real f * (b * real m) + a * imag f * (b * imag m))
           * (a * real f * (b * real m) + a * imag f * (b * imag m))
           + (a * imag f * (b * real m) - a * real f * (b * imag m))
             * (a * imag f * (b * real m) - a * real f * (b * imag m)))
    with ((a * b) * (a * b) * (re * re + im * im)) by (unfold re, im; ring).
  rewrite sqrt_mult_alt by nra. rewrite sqrt_square by nra. reflexivity.
Qed.

(** X6.  The sample written does not depend on the amplitudes of the two
    input samples: scaling the fixed sample by [a > 0] and the moving
    sample by [b > 0] gives the same normalised value. *)
Theorem X6_normalized_scale_invariant
    (factor : PixelType) (a b : R) (f m : ComplexType) :
  0 < a -> 0 < b ->
  normalized factor (Cscale a f) (Cscale b m) = normalized factor f m.
Proof.
  unfold PixelType in *. intros Ha Hb.
  pose proof (crossMagn_scale a b f m Ha Hb) as Hs.
  destruct (Req_dec_T (crossMagn f m) 0) as [Hz | Hnz].
  - rewrite (normalized_zero_magn factor f m Hz).
    apply normalized_zero_magn. rewrite Hs, Hz. apply Rmult_0_r.
  - assert (Hnz' : crossMagn (Cscale a f) (Cscale b m) <> 0).
    { rewrite Hs. intros H.
      apply Rmult_integral in H. destruct H as [H | H]; [nra | easy]. }
    rewrite !normalized_nonzero_magn by assumption.
    rewrite Hs. unfold crossReal, crossImag, Cscale. cbn [real imag].
    f_equal; unfold PixelType; field; repeat split; lra.
Qed.

Lemma X6_normalized_scale_invariant_witness :
  (0 < 2 /\ 0 < 3) /\
  normalized 1 (Cscale 2 (Complex 1 1)) (Cscale 3 (Complex 0 1)) =
  normalized 1 (Complex 1 1) (Complex 0 1).
Proof.
  split; [lra |].
  apply (X6_normalized_scale_invariant 1 2 3 (Complex 1 1) (Complex 0 1)); lra.
Defined.

(** X7.  Exchanging the fixed and the moving sample conjugates the sample
    written: the real part stays, the imaginary part changes sign. *)
Theorem X7_normalized_swap_conjugates
    (factor : PixelType) (f m : ComplexType) :
  normalized factor m f = Cconj (normalized factor f m).
Proof.
  unfold PixelType in *.
  assert (Hre : crossReal m f = crossReal f m)
    by (unfold crossReal, PixelType; ring).
  assert (Him : crossImag m f = - crossImag f m)
    by (unfold crossImag, PixelType; ring).
  assert (Hmg : crossMagn m f = crossMagn f m).
  { unfold crossMagn. rewrite Hre, Him. f_equal. ring. }
  destruct (Req_dec_T (crossMagn f m) 0) as [Hz | Hnz].
  - rewrite !normalized_zero_magn by congruence.
    unfold Cconj. cbn [real imag]. f_equal. unfold PixelType. ring.
  - rewrite !normalized_nonzero_magn by congruence.
    rewrite Hre, Him, Hmg. unfold Cconj. cbn [real imag].
    f_equal. unfold PixelType. field. exact Hnz.
Qed.

(** ** The band-pass factor, continued *)

Lemma ramp_compare (x d : R) :
  0 < d ->
  (x < 0 -> x / d < 0) /\ (0 <= x -> 0 <= x / d) /\
  (x < d -> x / d < 1) /\ (d <= x -> 1 <= x / d).
Proof.
  intros Hd.
  assert (Hi : 0 < / d) by (now apply Rinv_0_lt_compat).
  assert (H1 : d * / d = 1) by (apply Rinv_r; lra).
  unfold Rdiv. repeat split; intros H; nra.
Qed.

Lemma factorAt_trapezoid (c0 c1 c2 c3 r : R) :
  c0 < c1 -> c1 < c2 -> c2 < c3 ->
  factorAt c0 c1 c2 c3 r = trapezoid c0 c1 c2 c3 r.
Proof.
  intros H01 H12 H23. unfold trapezoid.
  destruct (ramp_compare (r - c0) (c1 - c0)) as [U0 [U1 [U2 U3]]]; [lra |].
  destruct (ramp_compare (c3 - r) (c3 - c2)) as [V0 [V1 [V2 V3]]]; [lra |].
  assert (Hup : (r - c0) * (1 / (c1 - c0)) = (r - c0) / (c1 - c0))
    by (field; lra).
  assert (Hdown : (c3 - r) * (1 / (c3 - c2)) = (c3 - r) / (c3 - c2))
    by (field; lra).
  unfold factorAt.
  destruct (Rlt_dec r c0) as [L0 | L0].
  { rewrite bandPassFactor_below by exact L0.
    specialize (U0 ltac:(lra)).
    unfold Rmax, Rmin; repeat destruct (Rle_dec _ _); lra. }
  destruct (Rlt_dec r c1) as [L1 | L1].
  { rewrite bandPassFactor_rampUp by lra. rewrite Hup.
    specialize (U1 ltac:(lra)). specialize (U2 ltac:(lra)).
    specialize (V3 ltac:(lra)).
    unfold Rmax, Rmin; repeat destruct (Rle_dec _ _); lra. }
  destruct (Rle_dec r c2) as [L2 | L2].
  { rewrite bandPassFactor_pass by lra.
    specialize (U3 ltac:(lra)). specialize (V3 ltac:(lra)).
    unfold Rmax, Rmin; repeat destruct (Rle_dec _ _); lra. }
  destruct (Rle_dec r c3) as [L3 | L3].
  { rewrite bandPassFactor_rampDown by lra. rewrite Hdown.
    specialize (V1 ltac:(lra)). specialize (V2 ltac:(lra)).
    specialize (U3 ltac:(lra)).
    unfold Rmax, Rmin; repeat destruct (Rle_dec _ _); lra. }
  rewrite bandPassFactor_above by lra.
  specialize (V0 ltac:(lra)).
  unfold Rmax, Rmin; repeat destruct (Rle_dec _ _); lra.
Qed.

(** X8.  For control points [c0 < c1 < c2 < c3] the chain of tests
    computes the trapezoid [max 0 (min 1 (min up down))] of the rising line
    [up = (r - c0) / (c1 - c0)] and the falling line
    [down = (c3 - r) / (c3 - c2)], at every radius. *)
Theorem X8_factor_is_trapezoid (c0 c1 c2 c3 r : PixelType) :
  c0 < c1 -> c1 < c2 -> c2 < c3 ->
  factorAt c0 c1 c2 c3 r = trapezoid c0 c1 c2 c3 r.
Proof. apply factorAt_trapezoid. Qed.

Lemma X8_factor_is_trapezoid_witness :
  (1 < 2 /\ 2 < 5 /\ 5 < 9) /\ factorAt 1 2 5 9 7 = trapezoid 1 2 5 9 7.
Proof.
  split; [lra |]. apply (X8_factor_is_trapezoid 1 2 5 9 7); lra.
Defined.

Lemma clamp_min_lipschitz (u v u' v' D : R) :
  - D <= u' - u <= D -> - D <= v' - v <= D ->
  - D <= Rmax 0 (Rmin 1 (Rmin u' v')) - Rmax 0 (Rmin 1 (Rmin u v)) <= D.
Proof.
  intros Hu Hv.
  unfold Rmax, Rmin; repeat destruct (Rle_dec _ _); lra.
Qed.

Lemma ramp_difference (x x' d K : R) :
  0 < d -> 1 / d <= K ->
  - (K * Rabs (x - x')) <= x' / d - x / d <= K * Rabs (x - x').
Proof.
  intros Hd HK.
  assert (Hi : 0 < / d) by (now apply Rinv_0_lt_compat).
  replace (1 / d) with (/ d) in HK by (unfold Rdiv; ring).
  replace (x' / d - x / d) with ((x' - x) * / d) by (unfold Rdiv; ring).
  unfold Rabs. destruct (Rcase_abs (x - x')); nra.
Qed.

(** X9.  For control points [c0 < c1 < c2 < c3] the factor has no jump: two
    radii [r] and [r'] give factors that differ by at most [K * |r - r'|],
    for any [K] that bounds the slopes [1 / (c1 - c0)] and
    [1 / (c3 - c2)] of the two ramps. *)
Theorem X9_factor_lipschitz (c0 c1 c2 c3 K r r' : PixelType) :
  c0 < c1 -> c1 < c2 -> c2 < c3 ->
  1 / (c1 - c0) <= K -> 1 / (c3 - c2) <= K ->
  Rabs (factorAt c0 c1 c2 c3 r - factorAt c0 c1 c2 c3 r')
  <= K * Rabs (r - r').
Proof.
  unfold PixelType in *. intros H01 H12 H23 HK1 HK2.
  rewrite !factorAt_trapezoid by assumption. unfold trapezoid.
  pose proof (ramp_difference (r - c0) (r' - c0) (c1 - c0) K
                ltac:(lra) HK1) as Hu.
  pose proof (ramp_difference (c3 - r') (c3 - r) (c3 - c2) K
                ltac:(lra) HK2) as Hv.
  replace (r - c0 - (r' - c0)) with (r - r') in Hu by ring.
  replace (c3 - r' - (c3 - r)) with (r - r') in Hv by ring.
  pose proof (clamp_min_lipschitz
                ((r - c0) / (c1 - c0)) ((c3 - r) / (c3 - c2))
                ((r' - c0) / (c1 - c0)) ((c3 - r') / (c3 - c2))
                (K * Rabs (r - r')) Hu ltac:(lra)) as H.
  apply Rabs_le. lra.
Qed.

Lemma X9_factor_lipschitz_witness :
  (1 < 2 /\ 2 < 5 /\ 5 < 9 /\ 1 / (2 - 1) <= 1 /\ 1 / (9 - 5) <= 1) /\
  Rabs (factorAt 1 2 5 9 (3 / 2) - factorAt 1 2 5 9 2)
  <= 1 * Rabs (3 / 2 - 2).
Proof.
  split; [lra |].
  apply (X9_factor_lipschitz 1 2 5 9 1 (3 / 2) 2); lra.
Defined.

(** ** The bands of a run *)

Lemma computeMaxDist_nonneg (n : nat) (size : SizeType) :
  0 <= computeMaxDist n size.
Proof. unfold computeMaxDist. apply sqrt_pos. Qed.

(** X10.  With a valid stored tuple, a run writes [(0,0)] at every index
    whose radius is below [c0 * maxDist] or above [c3 * maxDist], and at
    every index whose radius lies between [c1 * maxDist] and
    [c2 * maxDist] it writes the cross-power term divided by its magnitude,
    a sample of modulus 1, when that magnitude is not zero. *)
Theorem X10_stop_band_and_pass_band
    (VImageDimension : nat) (self : PhaseCorrelationOperator)
    (fixed moving output : ImageType) (region : RegionType) (ind : IndexType) :
  validPoints (m_BandPassControlPoints self) ->
  In ind (regionIndices region) ->
  let maxDist := maxDistOf VImageDimension output in
  let r := radiusAt VImageDimension output ind in
  let F := GetPixel fixed ind in
  let M := GetPixel moving ind in
  let written :=
    GetPixel (DynamicThreadedGenerateData VImageDimension self fixed moving
                                          output region) ind in
  (r < numberOf (pt0 (m_BandPassControlPoints self)) * maxDist \/
   numberOf (pt3 (m_BandPassControlPoints self)) * maxDist < r ->
   written = Complex 0 0) /\
  (numberOf (pt1 (m_BandPassControlPoints self)) * maxDist <= r
   <= numberOf (pt2 (m_BandPassControlPoints self)) * maxDist ->
   crossMagn F M <> 0 ->
   written = Complex (crossReal F M / crossMagn F M)
                     (crossImag F M / crossMagn F M) /\
   Cabs written = 1).
Proof.
  intros Hv Hin maxDist r F M written. unfold PixelType in *.
  assert (Hm : 0 <= maxDist) by apply computeMaxDist_nonneg.
  apply validPoints_numbers in Hv.
  destruct Hv as [p0 [p1 [p2 [p3 [Hp [Hv0 [Hv1 [Hv2 [Hv3 Hv4]]]]]]]]].
  pose proof (factorOf_numbers VImageDimension self output ind p0 p1 p2 p3 Hp)
    as Hfac.
  fold maxDist r in Hfac. unfold factorAt in Hfac.
  rewrite Hp. cbn [pt0 pt1 pt2 pt3 numberOf].
  assert (H01 : p0 * maxDist <= p1 * maxDist) by nra.
  assert (H12 : p1 * maxDist <= p2 * maxDist) by nra.
  assert (H23 : p2 * maxDist <= p3 * maxDist) by nra.
  assert (Hw : written = normalized (factorOf VImageDimension self output ind)
                                    F M)
    by (now apply written_sample).
  split.
  - intros Hout.
    assert (Hf : factorOf VImageDimension self output ind = 0).
    { rewrite Hfac. destruct Hout as [Hlo | Hhi].
      - now apply bandPassFactor_below.
      - apply bandPassFactor_above; lra. }
    rewrite Hw, Hf.
    destruct (Req_dec_T (crossMagn F M) 0) as [Hz | Hnz].
    + now apply normalized_zero_magn.
    + rewrite normalized_nonzero_magn by exact Hnz.
      f_equal; unfold PixelType, Rdiv; ring.
  - intros Hpass Hnz.
    assert (Hf : factorOf VImageDimension self output ind = 1).
    { rewrite Hfac. apply bandPassFactor_pass; lra. }
    split.
    + rewrite Hw, Hf. rewrite normalized_nonzero_magn by exact Hnz.
      f_equal; unfold PixelType, Rdiv; ring.
    + rewrite Hw, Hf. apply Cabs_normalized; [lra | exact Hnz].
Qed.

Lemma X10_stop_band_and_pass_band_witness :
  (validPoints (m_BandPassControlPoints (New 0)) /\
   In [0; 0]%Z (regionIndices Sample.square) /\
   radiusAt 2 Sample.ones [0; 0]%Z
   < numberOf (pt0 (m_BandPassControlPoints (New 0)))
     * maxDistOf 2 Sample.ones) /\
  GetPixel (DynamicThreadedGenerateData 2 (New 0) Sample.ones Sample.ones
                                        Sample.ones Sample.square) [0; 0]%Z
  = Complex 0 0.
Proof.
  assert (Hband : radiusAt 2 Sample.ones [0; 0]%Z
                  < numberOf (pt0 (m_BandPassControlPoints (New 0)))
                    * maxDistOf 2 Sample.ones).
  { assert (Hr : radiusAt 2 Sample.ones [0; 0]%Z = 0).
    { unfold radiusAt. rewrite computeDistFrom0_sqDistZ.
      replace (sqDistZ _ _ _ _) with 0%Z by (vm_compute; reflexivity).
      apply sqrt_0. }
    assert (Hm : 0 < maxDistOf 2 Sample.ones).
    { unfold maxDistOf. rewrite computeMaxDist_maxDistSq4Z.
      replace (maxDistSq4Z _ _) with 20%Z by (vm_compute; reflexivity).
      apply sqrt_lt_R0. lra. }
    rewrite Hr. cbn [New m_BandPassControlPoints pt0 numberOf]. lra. }
  split;
    [split; [exact (default_points_valid 0) |
             split; [exact origin_in_square | exact Hband]] |].
  apply (X10_stop_band_and_pass_band 2 (New 0) Sample.ones Sample.ones
           Sample.ones Sample.square [0; 0]%Z (default_points_valid 0)
           origin_in_square).
  left. exact Hband.
Defined.

Lemma fold_left_plus_ge (h : nat -> Z) (l : list nat) (a : Z) :
  (forall d, (0 <= h d)%Z) ->
  (a <= fold_left (fun acc d => (acc + h d)%Z) l a)%Z.
Proof.
  intros Hh. revert a. induction l as [| d l IH]; intros a; [cbn; lia |].
  cbn [fold_left]. specialize (IH (a + h d)%Z). specialize (Hh d). lia.
Qed.

Lemma wrapU_nonneg (z : Z) : (0 <= wrapU z)%Z.
Proof. unfold wrapU, modulus. apply Z.mod_pos_bound. lia. Qed.

Lemma computeMaxDist_ge_size0 (n : nat) (size : SizeType) :
  (0 <= at_ size 0 < 2 ^ 32)%Z ->
  IZR (at_ size 0) <= computeMaxDist n size.
Proof.
  intros Hs. rewrite computeMaxDist_maxDistSq4Z.
  rewrite <- (sqrt_square (IZR (at_ size 0))) at 1 by (apply IZR_le; lia).
  apply sqrt_le_1_alt.
  assert (Hge : (4 * wrapU (at_ size 0 * at_ size 0) <= maxDistSq4Z n size)%Z).
  { unfold maxDistSq4Z.
    apply (fold_left_plus_ge (fun d => wrapU (at_ size d * at_ size d))).
    intros d. apply wrapU_nonneg. }
  assert (Hsq : (0 <= at_ size 0 * at_ size 0 < modulus)%Z).
  { unfold modulus. change (2 ^ 64)%Z with (2 ^ 32 * 2 ^ 32)%Z.
    split; [nia |]. apply Z.mul_lt_mono_nonneg; lia. }
  rewrite wrapU_small in Hge by exact Hsq.
  apply IZR_le in Hge. rewrite !mult_IZR in Hge. lra.
Qed.

(** X11.  With a valid stored tuple and an output whose first axis has a
    size between 1 and [2^32 - 1], [maxDist] is at least that size, the
    scaled control points are strictly increasing, and the two differences
    whose reciprocals lines 139-140 take are positive. *)
Theorem X11_scaled_points_increasing
    (VImageDimension : nat) (self : PhaseCorrelationOperator)
    (output : ImageType) :
  validPoints (m_BandPassControlPoints self) ->
  (0 < at_ (GetSize (GetLargestPossibleRegion output)) 0 < 2 ^ 32)%Z ->
  let maxDist := maxDistOf VImageDimension output in
  let c0 := numberOf (pt0 (m_BandPassControlPoints self)) * maxDist in
  let c1 := numberOf (pt1 (m_BandPassControlPoints self)) * maxDist in
  let c2 := numberOf (pt2 (m_BandPassControlPoints self)) * maxDist in
  let c3 := numberOf (pt3 (m_BandPassControlPoints self)) * maxDist in
  IZR (at_ (GetSize (GetLargestPossibleRegion output)) 0) <= maxDist /\
  0 <= c0 /\ c0 < c1 /\ c1 < c2 /\ c2 < c3 /\ c3 <= maxDist /\
  0 < c1 - c0 /\ 0 < c3 - c2.
Proof.
  intros Hv Hs maxDist c0 c1 c2 c3. unfold PixelType in *.
  apply validPoints_numbers in Hv.
  destruct Hv as [p0 [p1 [p2 [p3 [Hp [Hv0 [Hv1 [Hv2 [Hv3 Hv4]]]]]]]]].
  assert (Hge : IZR (at_ (GetSize (GetLargestPossibleRegion output)) 0)
                <= maxDist)
    by (apply computeMaxDist_ge_size0; lia).
  assert (H1 : 1 <= IZR (at_ (GetSize (GetLargestPossibleRegion output)) 0))
    by (apply IZR_le; lia).
  assert (Hpos : 0 < maxDist) by lra.
  unfold c0, c1, c2, c3. rewrite Hp. cbn [pt0 pt1 pt2 pt3 numberOf].
  repeat apply conj; try exact Hge; nra.
Qed.

Lemma X11_scaled_points_increasing_witness :
  (validPoints (m_BandPassControlPoints (New 0)) /\
   (0 < at_ (GetSize (GetLargestPossibleRegion Sample.ones)) 0 < 2 ^ 32)%Z) /\
  0 < numberOf (pt1 (m_BandPassControlPoints (New 0))) * maxDistOf 2 Sample.ones
      - numberOf (pt0 (m_BandPassControlPoints (New 0))) * maxDistOf 2 Sample.ones.
Proof.
  assert (Hs : (0 < at_ (GetSize (GetLargestPossibleRegion Sample.ones)) 0
                < 2 ^ 32)%Z) by (cbn; lia).
  split; [split; [exact (default_points_valid 0) | exact Hs] |].
  apply (X11_scaled_points_increasing 2 (New 0) Sample.ones
           (default_points_valid 0) Hs).
Defined.

(** ** The indices of a region *)

Lemma axisRange_In (i s n : Z) :
  In i (axisRange s n) <-> (s <= i < s + n)%Z.
Proof.
  unfold axisRange. rewrite in_map_iff. split.
  - intros [k [<- Hk]]. apply in_seq in Hk. lia.
  - intros H. exists (Z.to_nat (i - s)). split; [lia |].
    apply in_seq. lia.
Qed.

Lemma lineTails_In (start : IndexType) (size : SizeType) (t : list Z) :
  In t (lineTails start size) <-> inBox start size t.
Proof.
  revert size t. induction start as [| s start IH]; intros size t.
  - cbn. split; [intros [<- | []]; reflexivity | intros ->; now left].
  - destruct size as [| n size].
    + cbn. split; [intros [<- | []]; reflexivity | intros ->; now left].
    + cbn [lineTails inBox]. rewrite in_flat_map. split.
      * intros [rest [Hrest Ht]]. apply in_map_iff in Ht.
        destruct Ht as [i [<- Hi]]. split; [now apply axisRange_In |].
        now apply IH.
      * destruct t as [| i t']; [easy |]. intros [Hi Ht'].
        exists t'. split; [now apply IH |].
        apply in_map_iff. exists i. split; [reflexivity |].
        now apply axisRange_In.
Qed.

Lemma regionIndices_In (start : IndexType) (size : SizeType) (ind : IndexType) :
  In ind (regionIndices (Region start size)) <->
  start <> [] /\ size <> [] /\ inBox start size ind.
Proof.
  unfold regionIndices, scanLines. cbn [GetIndex GetSize].
  destruct start as [| s start]; [cbn; tauto |].
  destruct size as [| n size]; [cbn; tauto |].
  rewrite <- flat_map_concat_map.
  change (flat_map _ (lineTails start size))
    with (lineTails (s :: start) (n :: size)).
  rewrite lineTails_In. split; [intros H; repeat split; easy | tauto].
Qed.

Lemma inBox_at (start : IndexType) (size : SizeType) (ind : IndexType) :
  inBox start size ind <->
  List.length ind = Nat.min (List.length start) (List.length size) /\
  forall d, (d < List.length ind)%nat ->
            (at_ start d <= at_ ind d < at_ start d + at_ size d)%Z.
Proof.
  revert size ind. induction start as [| s start IH]; intros size ind.
  - cbn. split.
    + intros ->. split; [reflexivity |]. cbn. intros d Hd. lia.
    + intros [Hl _]. now destruct ind.
  - destruct size as [| n size].
    + cbn. split.
      * intros ->. split; [reflexivity |]. cbn. intros d Hd. lia.
      * intros [Hl _]. now destruct ind.
    + destruct ind as [| i ind].
      * cbn. split; [easy | intros [Hl _]; discriminate Hl].
      * cbn [inBox List.length Nat.min]. rewrite IH. split.
        -- intros [Hi [Hl Hb]]. split; [now rewrite Hl |].
           intros [| d] Hd; [exact Hi |]. apply (Hb d). lia.
        -- intros [Hl Hb]. split; [exact (Hb 0%nat ltac:(lia)) |].
           split; [now injection Hl |].
           intros d Hd. apply (Hb (S d)). lia.
Qed.

(** An index of a region, by its coordinates. *)
Lemma regionIndices_at (start : IndexType) (size : SizeType) (ind : IndexType) :
  In ind (regionIndices (Region start size)) <->
  start <> [] /\ size <> [] /\
  List.length ind = Nat.min (List.length start) (List.length size) /\
  forall d, (d < List.length ind)%nat ->
            (at_ start d <= at_ ind d < at_ start d + at_ size d)%Z.
Proof. rewrite regionIndices_In, inBox_at. tauto. Qed.

(** ** The folded offsets and the zero-frequency sample *)

(** X12.  On a wrapped axis of size [s < 2^62], an in-region offset [raw]
    is folded to the smaller of [raw] and [s - raw], except at the middle
    offset [raw = (s - 1) / 2] of an axis of odd size, which is folded to
    [raw + 1]; the folded offset is never negative and never more than
    [(s + 1) / 2]. *)
Theorem X12_folded_offset
    (size : SizeType) (ind ind0 : IndexType) (d : nat) :
  (0 <= at_ ind d - at_ ind0 d < at_ size d)%Z ->
  (at_ size d < 2 ^ 62)%Z ->
  ((2 * (at_ ind d - at_ ind0 d) + 1 <> at_ size d)%Z ->
   foldedInd size ind ind0 d =
   Z.min (at_ ind d - at_ ind0 d) (at_ size d - (at_ ind d - at_ ind0 d))) /\
  ((2 * (at_ ind d - at_ ind0 d) + 1 = at_ size d)%Z ->
   foldedInd size ind ind0 d = (at_ ind d - at_ ind0 d + 1)%Z) /\
  (0 <= 2 * foldedInd size ind ind0 d <= at_ size d + 1)%Z.
Proof.
  intros Hraw Hs. rewrite foldedInd_small by assumption.
  set (raw := (at_ ind d - at_ ind0 d)%Z) in *.
  set (s := at_ size d) in *.
  rewrite Z.geb_leb.
  destruct (Z.leb_spec (s / 2) raw) as [H | H];
    (split; [intros Hm | split; [intros Hm |]]);
    Z.div_mod_to_equations; lia.
Qed.

Lemma X12_folded_offset_witness :
  ((0 <= at_ [0; 4]%Z 1 - at_ [0; 0]%Z 1 < at_ [2; 9]%Z 1)%Z /\
   (at_ [2; 9]%Z 1 < 2 ^ 62)%Z /\
   (2 * (at_ [0; 4]%Z 1 - at_ [0; 0]%Z 1) + 1 = at_ [2; 9]%Z 1)%Z) /\
  foldedInd [2; 9]%Z [0; 4]%Z [0; 0]%Z 1 = 5%Z.
Proof.
  assert (H1 : (0 <= at_ [0; 4]%Z 1 - at_ [0; 0]%Z 1 < at_ [2; 9]%Z 1)%Z)
    by (cbn; lia).
  assert (H2 : (at_ [2; 9]%Z 1 < 2 ^ 62)%Z) by (cbn; lia).
  assert (H3 : (2 * (at_ [0; 4]%Z 1 - at_ [0; 0]%Z 1) + 1
                = at_ [2; 9]%Z 1)%Z) by (cbn; lia).
  split; [now repeat split |].
  apply (proj1 (proj2 (X12_folded_offset [2; 9]%Z [0; 4]%Z [0; 0]%Z 1 H1 H2))
           H3).
Defined.

Lemma fold_left_plus_zero (g : nat -> Z) (l : list nat) (a : Z) :
  (forall d, In d l -> g d = 0%Z) ->
  fold_left (fun acc d => (acc + g d)%Z) l a = a.
Proof.
  revert a. induction l as [| d l IH]; intros a H; [reflexivity |].
  cbn [fold_left]. rewrite IH by (intros d' Hd'; apply H; now right).
  rewrite (H d) by now left. lia.
Qed.

Lemma radius_at_start_index (n : nat) (size : SizeType) (ind0 : IndexType) :
  (forall d, (1 <= d < n)%nat -> (2 <= at_ size d < 2 ^ 62)%Z) ->
  computeDistFrom0 n size ind0 ind0 = 0.
Proof.
  intros Hs. rewrite computeDistFrom0_sqDistZ.
  replace (sqDistZ n size ind0 ind0) with 0%Z; [apply sqrt_0 |].
  unfold sqDistZ. rewrite Z.sub_diag.
  rewrite (fold_left_plus_zero
             (fun d => wrapS (foldedInd size ind0 ind0 d
                              * foldedInd size ind0 ind0 d)));
    [reflexivity |].
  intros d Hd. unfold higherAxes in Hd. apply in_seq in Hd.
  specialize (Hs d ltac:(lia)).
  rewrite foldedInd_small by lia. rewrite Z.sub_diag, Z.geb_leb.
  destruct (Z.leb_spec (at_ size d / 2) 0) as [H | H]; [| reflexivity].
  exfalso. Z.div_mod_to_equations. lia.
Qed.

(** X13.  The zero-frequency sample is removed: with a valid stored tuple
    whose first point is positive, a first axis of size between 1 and
    [2^32 - 1] and wrapped axes of sizes between 2 and [2^62 - 1], the
    radius at the output's start index is 0 and a run over a region that
    holds this index writes [(0,0)] there, whatever the inputs. *)
Theorem X13_zero_frequency_sample_removed
    (VImageDimension : nat) (self : PhaseCorrelationOperator)
    (fixed moving output : ImageType) (region : RegionType) :
  let ind0 := GetIndex (GetLargestPossibleRegion output) in
  let size := GetSize (GetLargestPossibleRegion output) in
  validPoints (m_BandPassControlPoints self) ->
  0 < numberOf (pt0 (m_BandPassControlPoints self)) ->
  (0 < at_ size 0 < 2 ^ 32)%Z ->
  (forall d, (1 <= d < VImageDimension)%nat -> (2 <= at_ size d < 2 ^ 62)%Z) ->
  In ind0 (regionIndices region) ->
  radiusAt VImageDimension output ind0 = 0 /\
  GetPixel (DynamicThreadedGenerateData VImageDimension self fixed moving
                                        output region) ind0 = Complex 0 0.
Proof.
  intros ind0 size Hv Hp0 Hs0 Hs Hin. unfold PixelType in *.
  assert (Hr : radiusAt VImageDimension output ind0 = 0)
    by (now apply radius_at_start_index).
  split; [exact Hr |].
  assert (Hge : IZR (at_ size 0) <= maxDistOf VImageDimension output)
    by (apply computeMaxDist_ge_size0; fold size; lia).
  assert (H1 : 1 <= IZR (at_ size 0)) by (apply IZR_le; lia).
  assert (Hf : factorOf VImageDimension self output ind0 = 0).
  { apply validPoints_numbers in Hv.
    destruct Hv as [p0 [p1 [p2 [p3 [Hp _]]]]].
    rewrite (factorOf_numbers VImageDimension self output ind0 p0 p1 p2 p3 Hp).
    unfold factorAt. rewrite Hr. apply bandPassFactor_below.
    rewrite Hp in Hp0. cbn [pt0 numberOf] in Hp0.
    apply Rmult_lt_0_compat; lra. }
  rewrite written_sample by exact Hin. rewrite Hf.
  destruct (Req_dec_T (crossMagn (GetPixel fixed ind0) (GetPixel moving ind0)) 0)
    as [Hz | Hnz].
  - now apply normalized_zero_magn.
  - rewrite normalized_nonzero_magn by exact Hnz.
    f_equal; unfold PixelType, Rdiv; ring.
Qed.

Lemma X13_zero_frequency_sample_removed_witness :
  (validPoints (m_BandPassControlPoints (New 0)) /\
   0 < numberOf (pt0 (m_BandPassControlPoints (New 0))) /\
   In [0; 0]%Z (regionIndices Sample.square)) /\
  GetPixel (DynamicThreadedGenerateData 2 (New 0) Sample.ones Sample.ones
                                        Sample.ones Sample.square) [0; 0]%Z
  = Complex 0 0.
Proof.
  assert (Hp : 0 < numberOf (pt0 (m_BandPassControlPoints (New 0)))) by (cbn; lra).
  split;
    [split; [exact (default_points_valid 0) |
             split; [exact Hp | exact origin_in_square]] |].
  apply (X13_zero_frequency_sample_removed 2 (New 0) Sample.ones Sample.ones
           Sample.ones Sample.square (default_points_valid 0) Hp).
  - cbn. lia.
  - intros d Hd. assert (d = 1%nat) as -> by lia. cbn. lia.
  - exact origin_in_square.
Defined.

(** ** What a run leaves alone *)

Lemma fold_visit_header
    (VImageDimension : nat) (self : PhaseCorrelationOperator)
    (fixed moving : ImageType) (l : list IndexType) (o : ImageType) :
  GetSpacing (fold_left (visit VImageDimension self fixed moving) l o)
  = GetSpacing o /\
  FFT_Actual_RealImage_Size
    (fold_left (visit VImageDimension self fixed moving) l o)
  = FFT_Actual_RealImage_Size o.
Proof.
  revert o. induction l as [| i l IH]; intros o; [now split |].
  cbn [fold_left]. destruct (IH (visit VImageDimension self fixed moving o i))
    as [H1 H2].
  now rewrite H1, H2.
Qed.

(** X14.  A call writes nowhere but in its region: the output's spacing,
    largest possible region and meta data entry are as before, and so is
    every sample at an index outside the thread's region. *)
Theorem X14_run_writes_only_its_region
    (VImageDimension : nat) (self : PhaseCorrelationOperator)
    (fixed moving output : ImageType) (region : RegionType) :
  let after :=
    DynamicThreadedGenerateData VImageDimension self fixed moving
                                output region in
  GetSpacing after = GetSpacing output /\
  GetLargestPossibleRegion after = GetLargestPossibleRegion output /\
  FFT_Actual_RealImage_Size after = FFT_Actual_RealImage_Size output /\
  forall j : IndexType,
    ~ In j (regionIndices region) -> GetPixel after j = GetPixel output j.
Proof.
  intros after. unfold after.
  split; [| split; [| split]].
  - unfold DynamicThreadedGenerateData. rewrite fold_lines_concat.
    apply fold_visit_header.
  - apply DynamicThreadedGenerateData_region.
  - unfold DynamicThreadedGenerateData. rewrite fold_lines_concat.
    apply fold_visit_header.
  - intros j Hj. rewrite DynamicThreadedGenerateData_pixel.
    now destruct (in_dec Index_eq_dec j (regionIndices region)).
Qed.

Lemma origin_not_in_upperLine :
  ~ In [0; 0]%Z (regionIndices Sample.upperLine).
Proof.
  vm_compute. intros [H | [H | []]]; discriminate H.
Qed.

Lemma X14_run_writes_only_its_region_witness :
  ~ In [0; 0]%Z (regionIndices Sample.upperLine) /\
  GetPixel (DynamicThreadedGenerateData 2 (New 0) Sample.ones Sample.ones
                                        Sample.zeros Sample.upperLine)
           [0; 0]%Z
  = GetPixel Sample.zeros [0; 0]%Z.
Proof.
  split; [exact origin_not_in_upperLine |].
  apply (X14_run_writes_only_its_region 2 (New 0) Sample.ones Sample.ones
           Sample.zeros Sample.upperLine).
  exact origin_not_in_upperLine.
Defined.

(** X15.  Calls repeat and commute, whether their regions overlap or not:
    a second call on the same region leaves every sample as the first call
    left it, and two calls on two regions leave the same samples in either
    order. *)
Theorem X15_runs_repeat_and_commute
    (VImageDimension : nat) (self : PhaseCorrelationOperator)
    (fixed moving output : ImageType) (r1 r2 : RegionType) (j : IndexType) :
  let run := DynamicThreadedGenerateData VImageDimension self fixed moving in
  GetPixel (run (run output r1) r1) j = GetPixel (run output r1) j /\
  GetPixel (run (run output r1) r2) j = GetPixel (run (run output r2) r1) j.
Proof.
  intros run. unfold run.
  rewrite !DynamicThreadedGenerateData_pixel.
  rewrite ?(sampleAt_geometry VImageDimension self fixed moving output
              (DynamicThreadedGenerateData VImageDimension self fixed moving
                                           output r1))
    by apply DynamicThreadedGenerateData_region.
  rewrite ?(sampleAt_geometry VImageDimension self fixed moving output
              (DynamicThreadedGenerateData VImageDimension self fixed moving
                                           output r2))
    by apply DynamicThreadedGenerateData_region.
  split.
  - now destruct (in_dec Index_eq_dec j (regionIndices r1)).
  - destruct (in_dec Index_eq_dec j (regionIndices r1));
      destruct (in_dec Index_eq_dec j (regionIndices r2)); reflexivity.
Qed.

(** X16.  A region that is empty, because one of its axes has size zero
    or less, is walked without a step: the call returns the output as it
    received it. *)
Theorem X16_empty_region_is_skipped
    (VImageDimension : nat) (self : PhaseCorrelationOperator)
    (fixed moving output : ImageType) (region : RegionType) (d : nat) :
  (d < List.length (GetIndex region))%nat ->
  (d < List.length (GetSize region))%nat ->
  (at_ (GetSize region) d <= 0)%Z ->
  regionIndices region = [] /\
  DynamicThreadedGenerateData VImageDimension self fixed moving output region
  = output.
Proof.
  intros Hd1 Hd2 Hz.
  assert (He : regionIndices region = []).
  { destruct (regionIndices region) as [| ind rest] eqn:E; [reflexivity |].
    exfalso.
    assert (Hin : In ind (regionIndices region)) by (rewrite E; now left).
    destruct region as [start size]. cbn [GetIndex GetSize] in *.
    apply regionIndices_at in Hin. destruct Hin as [_ [_ [Hl Hb]]].
    specialize (Hb d ltac:(lia)). lia. }
  split; [exact He |].
  unfold DynamicThreadedGenerateData. rewrite fold_lines_concat.
  fold (regionIndices region). now rewrite He.
Qed.

Lemma X16_empty_region_is_skipped_witness :
  ((1 < List.length (GetIndex (Region [0; 0]%Z [2; 0]%Z)))%nat /\
   (1 < List.length (GetSize (Region [0; 0]%Z [2; 0]%Z)))%nat /\
   (at_ (GetSize (Region [0; 0]%Z [2; 0]%Z)) 1 <= 0)%Z) /\
  DynamicThreadedGenerateData 2 (New 0) Sample.ones Sample.ones Sample.zeros
                              (Region [0; 0]%Z [2; 0]%Z) = Sample.zeros.
Proof.
  assert (H1 : (1 < List.length (GetIndex (Region [0; 0]%Z [2; 0]%Z)))%nat)
    by (cbn; lia).
  assert (H2 : (1 < List.length (GetSize (Region [0; 0]%Z [2; 0]%Z)))%nat)
    by (cbn; lia).
  assert (H3 : (at_ (GetSize (Region [0; 0]%Z [2; 0]%Z)) 1 <= 0)%Z)
    by (cbn; lia).
  split; [now repeat split |].
  apply (X16_empty_region_is_skipped 2 (New 0) Sample.ones Sample.ones
           Sample.zeros (Region [0; 0]%Z [2; 0]%Z) 1 H1 H2 H3).
Defined.

(** ** The output geometry, continued *)

(** X18.  The meta data entry of the output: when both inputs carry the
    entry, the output gets the smaller of the two values; when one of them
    lacks it, the output's entry is left as it was, present or not. *)
Theorem X18_meta_data_entry
    (ImageDimension : nat) (fixed moving output : ImageType) :
  exists out : ImageType,
    GenerateOutputInformation ImageDimension
      (Some fixed) (Some moving) (Some output) = Some out /\
    (forall fixedX movingX : SizeValueType,
        FFT_Actual_RealImage_Size fixed = Some fixedX ->
        FFT_Actual_RealImage_Size moving = Some movingX ->
        FFT_Actual_RealImage_Size out = Some (Z.min fixedX movingX)) /\
    (FFT_Actual_RealImage_Size fixed = None \/
     FFT_Actual_RealImage_Size moving = None ->
     FFT_Actual_RealImage_Size out = FFT_Actual_RealImage_Size output).
Proof.
  eexists. split; [reflexivity |].
  cbn [FFT_Actual_RealImage_Size]. unfold computeMetaData. split.
  - intros fixedX movingX -> ->. f_equal.
    rewrite Z.gtb_ltb. destruct (Z.ltb_spec movingX fixedX); lia.
  - intros [-> | ->]; [reflexivity |].
    now destruct (FFT_Actual_RealImage_Size fixed).
Qed.

Lemma X18_meta_data_entry_witness :
  exists out : ImageType,
    GenerateOutputInformation 2
      (Some (Image [1; 1] Sample.square (Some 7%Z) (fun _ => Complex 0 0)))
      (Some (Image [1; 1] Sample.square (Some 5%Z) (fun _ => Complex 0 0)))
      (Some Sample.zeros) = Some out /\
    FFT_Actual_RealImage_Size out = Some 5%Z.
Proof.
  destruct (X18_meta_data_entry 2
              (Image [1; 1] Sample.square (Some 7%Z) (fun _ => Complex 0 0))
              (Image [1; 1] Sample.square (Some 5%Z) (fun _ => Complex 0 0))
              Sample.zeros) as [out [Hout [Hboth _]]].
  exists out. split; [exact Hout |].
  exact (Hboth 7%Z 5%Z eq_refl eq_refl).
Defined.

Lemma output_region_indices
    (n : nat) (fixed moving output : ImageType) (ind : IndexType) :
  In ind (regionIndices
            (Region (computeOutputStartIndex n
                       (GetIndex (GetLargestPossibleRegion fixed)))
                    (computeOutputSize n
                       (GetSize (GetLargestPossibleRegion fixed))
                       (GetSize (GetLargestPossibleRegion moving))))) ->
  List.length ind = n /\
  forall d, (d < n)%nat ->
    (at_ (GetIndex (GetLargestPossibleRegion fixed)) d <= at_ ind d
     < at_ (GetIndex (GetLargestPossibleRegion fixed)) d
       + Z.min (at_ (GetSize (GetLargestPossibleRegion fixed)) d)
               (at_ (GetSize (GetLargestPossibleRegion moving)) d))%Z.
Proof.
  intros Hin. apply regionIndices_at in Hin.
  destruct Hin as [_ [_ [Hl Hb]]].
  unfold computeOutputStartIndex, computeOutputSize in Hl.
  rewrite !length_map, !length_seq, Nat.min_id in Hl.
  split; [exact Hl |]. intros d Hd.
  specialize (Hb d ltac:(lia)).
  unfold computeOutputStartIndex, computeOutputSize in Hb.
  rewrite !at_map_seq in Hb by exact Hd.
  now rewrite Zleb_select_min in Hb.
Qed.

Lemma region_contains
    (start : IndexType) (size : SizeType) (n : nat) (ind : IndexType) :
  (1 <= n)%nat -> List.length start = n -> List.length size = n ->
  List.length ind = n ->
  (forall d, (d < n)%nat ->
     (at_ start d <= at_ ind d < at_ start d + at_ size d)%Z) ->
  In ind (regionIndices (Region start size)).
Proof.
  intros Hn Hs Hz Hl Hb. apply regionIndices_at.
  split; [intros ->; cbn in Hs; lia |].
  split; [intros ->; cbn in Hz; lia |].
  split; [rewrite Hs, Hz, Nat.min_id; exact Hl |].
  intros d Hd. apply Hb. lia.
Qed.

Lemma output_region_inside_inputs
    (ImageDimension : nat) (fixed moving output : ImageType) :
  (1 <= ImageDimension)%nat ->
  List.length (GetIndex (GetLargestPossibleRegion fixed)) = ImageDimension ->
  List.length (GetSize (GetLargestPossibleRegion fixed)) = ImageDimension ->
  exists out : ImageType,
    GenerateOutputInformation ImageDimension
      (Some fixed) (Some moving) (Some output) = Some out /\
    (forall ind : IndexType,
        In ind (regionIndices (GetLargestPossibleRegion out)) ->
        In ind (regionIndices (GetLargestPossibleRegion fixed))) /\
    (GetIndex (GetLargestPossibleRegion moving)
     = GetIndex (GetLargestPossibleRegion fixed) ->
     List.length (GetSize (GetLargestPossibleRegion moving))
     = ImageDimension ->
     forall ind : IndexType,
       In ind (regionIndices (GetLargestPossibleRegion out)) ->
       In ind (regionIndices (GetLargestPossibleRegion moving))).
Proof.
  intros Hn Hli Hls. eexists. split; [reflexivity |].
  cbn [GetLargestPossibleRegion]. split.
  - intros ind Hin.
    destruct (output_region_indices _ _ _ output _ Hin) as [Hl Hb].
    destruct (GetLargestPossibleRegion fixed) as [start size] eqn:E.
    cbn [GetIndex GetSize] in *.
    apply (region_contains start size ImageDimension); try assumption.
    intros d Hd. specialize (Hb d Hd). lia.
  - intros Hsame Hlm ind Hin.
    destruct (output_region_indices _ _ _ output _ Hin) as [Hl Hb].
    destruct (GetLargestPossibleRegion moving) as [start size] eqn:E.
    cbn [GetIndex GetSize] in *.
    apply (region_contains start size ImageDimension); try assumption.
    + now rewrite Hsame.
    + intros d Hd. specialize (Hb d Hd). rewrite Hsame. lia.
Qed.

(** X19.  The output region lies inside the fixed input: for inputs whose
    index and size arrays have [ImageDimension >= 1] entries, every index
    of the output's largest possible region is an index of the fixed
    input's, and also one of the moving input's when the moving input
    starts at the same index as the fixed one. *)
Theorem X19_output_region_inside_inputs
    (ImageDimension : nat) (fixed moving output : ImageType) :
  (1 <= ImageDimension)%nat ->
  List.length (GetIndex (GetLargestPossibleRegion fixed)) = ImageDimension ->
  List.length (GetSize (GetLargestPossibleRegion fixed)) = ImageDimension ->
  exists out : ImageType,
    GenerateOutputInformation ImageDimension
      (Some fixed) (Some moving) (Some output) = Some out /\
    (forall ind : IndexType,
        In ind (regionIndices (GetLargestPossibleRegion out)) ->
        In ind (regionIndices (GetLargestPossibleRegion fixed))) /\
    (GetIndex (GetLargestPossibleRegion moving)
     = GetIndex (GetLargestPossibleRegion fixed) ->
     List.length (GetSize (GetLargestPossibleRegion moving))
     = ImageDimension ->
     forall ind : IndexType,
       In ind (regionIndices (GetLargestPossibleRegion out)) ->
       In ind (regionIndices (GetLargestPossibleRegion moving))).
Proof. apply output_region_inside_inputs. Qed.

Lemma X19_output_region_inside_inputs_witness :
  ((1 <= 2)%nat /\
   List.length (GetIndex (GetLargestPossibleRegion Sample.ones)) = 2%nat /\
   List.length (GetSize (GetLargestPossibleRegion Sample.ones)) = 2%nat) /\
  exists out : ImageType,
    GenerateOutputInformation 2 (Some Sample.ones) (Some Sample.zeros)
                              (Some Sample.zeros) = Some out /\
    In [0; 0]%Z (regionIndices (GetLargestPossibleRegion Sample.ones)).
Proof.
  split; [repeat split; lia |].
  destruct (X19_output_region_inside_inputs 2 Sample.ones Sample.zeros
              Sample.zeros ltac:(lia) eq_refl eq_refl)
    as [out [Hout [Hfix _]]].
  exists out. split; [exact Hout |].
  apply Hfix. injection Hout as <-. vm_compute. tauto.
Defined.

(** X20.  The output's size, spacing and meta data entry do not depend on
    which input is the fixed one and which the moving one: exchanging the
    two inputs gives the same three values; only the start index follows
    the fixed input. *)
Theorem X20_geometry_symmetric_in_inputs
    (ImageDimension : nat) (fixed moving output : ImageType) :
  exists out out' : ImageType,
    GenerateOutputInformation ImageDimension
      (Some fixed) (Some moving) (Some output) = Some out /\
    GenerateOutputInformation ImageDimension
      (Some moving) (Some fixed) (Some output) = Some out' /\
    GetSize (GetLargestPossibleRegion out')
    = GetSize (GetLargestPossibleRegion out) /\
    GetSpacing out' = GetSpacing out /\
    FFT_Actual_RealImage_Size out' = FFT_Actual_RealImage_Size out.
Proof.
  do 2 eexists. split; [reflexivity |]. split; [reflexivity |].
  cbn [GetLargestPossibleRegion GetSize GetSpacing FFT_Actual_RealImage_Size].
  repeat apply conj.
  - unfold computeOutputSize. apply map_ext. intros i.
    rewrite !Zleb_select_min. apply Z.min_comm.
  - unfold computeOutputSpacing. apply map_ext. intros i.
    rewrite !Rgeb_select_max. apply Rmax_comm.
  - unfold computeMetaData.
    destruct (FFT_Actual_RealImage_Size fixed) as [x |];
      destruct (FFT_Actual_RealImage_Size moving) as [y |]; try reflexivity.
    f_equal. rewrite !Z.gtb_ltb.
    destruct (Z.ltb_spec x y); destruct (Z.ltb_spec y x); lia.
Qed.

(** X21.  The start index and the samples of the moving input play no part
    in the output's geometry: two moving inputs with the same spacing, size
    and meta data entry give the same output, and the output's sample
    buffer is the one it had. *)
Theorem X21_moving_start_index_ignored
    (ImageDimension : nat) (fixed moving moving' output : ImageType) :
  GetSpacing moving' = GetSpacing moving ->
  GetSize (GetLargestPossibleRegion moving')
  = GetSize (GetLargestPossibleRegion moving) ->
  FFT_Actual_RealImage_Size moving' = FFT_Actual_RealImage_Size moving ->
  GenerateOutputInformation ImageDimension
    (Some fixed) (Some moving') (Some output)
  = GenerateOutputInformation ImageDimension
      (Some fixed) (Some moving) (Some output) /\
  exists out : ImageType,
    GenerateOutputInformation ImageDimension
      (Some fixed) (Some moving) (Some output) = Some out /\
    GetPixel out = GetPixel output.
Proof.
  intros Hsp Hsz Hmd. split.
  - cbn. now rewrite Hsp, Hsz, Hmd.
  - eexists. split; reflexivity.
Qed.

Lemma X21_moving_start_index_ignored_witness :
  GenerateOutputInformation 2 (Some Sample.ones)
    (Some (Image [1; 1] (Region [5; 7]%Z [2; 2]%Z) None
                 (fun _ => Complex 1 1)))
    (Some Sample.zeros)
  = GenerateOutputInformation 2 (Some Sample.ones) (Some Sample.zeros)
                              (Some Sample.zeros).
Proof.
  apply (X21_moving_start_index_ignored 2 Sample.ones Sample.zeros
           (Image [1; 1] (Region [5; 7]%Z [2; 2]%Z) None
                  (fun _ => Complex 1 1))
           Sample.zeros eq_refl eq_refl eq_refl).
Defined.

(** ** The requested regions *)

(** X22.  After the three pipeline hooks have run on inputs whose index
    and size arrays have [ImageDimension >= 1] entries, the requested
    region of the output is its largest possible region, the requested
    region of each input is that input's largest possible region, and every
    index requested of the output is an index requested of the fixed
    input. *)
Theorem X22_requested_regions
    (ImageDimension : nat) (fixed moving output : DataObject) :
  (1 <= ImageDimension)%nat ->
  List.length (GetIndex (GetLargestPossibleRegion (GetImage fixed)))
  = ImageDimension ->
  List.length (GetSize (GetLargestPossibleRegion (GetImage fixed)))
  = ImageDimension ->
  exists (out : ImageType) (fixed' moving' : DataObject),
    GenerateOutputInformation ImageDimension
      (Some (GetImage fixed)) (Some (GetImage moving))
      (Some (GetImage output)) = Some out /\
    GenerateInputRequestedRegion (Some fixed) (Some moving)
    = (Some fixed', Some moving') /\
    GetImage fixed' = GetImage fixed /\ GetImage moving' = GetImage moving /\
    GetRequestedRegion fixed' = GetLargestPossibleRegion (GetImage fixed) /\
    GetRequestedRegion moving' = GetLargestPossibleRegion (GetImage moving) /\
    forall requested : RegionType,
      GetRequestedRegion
        (EnlargeOutputRequestedRegion (Data out requested))
      = GetLargestPossibleRegion out /\
      forall ind : IndexType,
        In ind (regionIndices
                  (GetRequestedRegion
                     (EnlargeOutputRequestedRegion (Data out requested)))) ->
        In ind (regionIndices (GetRequestedRegion fixed')).
Proof.
  intros Hn Hli Hls.
  destruct (output_region_inside_inputs ImageDimension (GetImage fixed)
              (GetImage moving) (GetImage output) Hn Hli Hls)
    as [out [Hout [Hfix _]]].
  exists out. do 2 eexists. split; [exact Hout |].
  split; [reflexivity |]. cbn [GetImage GetRequestedRegion SetRequestedRegion].
  repeat apply conj; try reflexivity.
  intros requested. split; [reflexivity |].
  intros ind Hin. apply Hfix. exact Hin.
Qed.

Lemma X22_requested_regions_witness :
  ((1 <= 2)%nat /\
   List.length (GetIndex (GetLargestPossibleRegion Sample.ones)) = 2%nat /\
   List.length (GetSize (GetLargestPossibleRegion Sample.ones)) = 2%nat) /\
  exists (out : ImageType) (fixed' moving' : DataObject),
    GenerateOutputInformation 2 (Some Sample.ones) (Some Sample.zeros)
                              (Some Sample.zeros) = Some out /\
    GenerateInputRequestedRegion
      (Some (Data Sample.ones Sample.lowerLine))
      (Some (Data Sample.zeros Sample.upperLine))
    = (Some fixed', Some moving') /\
    GetRequestedRegion fixed' = Sample.square.
Proof.
  split; [repeat split; lia |].
  destruct (X22_requested_regions 2 (Data Sample.ones Sample.lowerLine)
              (Data Sample.zeros Sample.upperLine)
              (Data Sample.zeros Sample.square) ltac:(lia) eq_refl eq_refl)
    as [out [fixed' [moving' [Hout [Hin [_ [_ [Hreq _]]]]]]]].
  exists out, fixed', moving'.
  split; [exact Hout |]. split; [exact Hin |]. exact Hreq.
Defined.

(** *** Instances on axes of even size *)

Lemma radius_wrap_symmetric_even_size_witness :
  ((1 <= 1 < 2)%nat /\
   (0 < at_ [0; 3]%Z 1 - at_ [0; 0]%Z 1 < at_ [2; 8]%Z 1)%Z /\
   Z.even (at_ [2; 8]%Z 1) = true) /\
  computeDistFrom0 2 [2; 8]%Z [0; 5]%Z [0; 0]%Z
  = computeDistFrom0 2 [2; 8]%Z [0; 3]%Z [0; 0]%Z.
Proof.
  split; [repeat split; cbn; lia |].
  apply (radius_wrap_symmetric_even_size 2 [2; 8]%Z [0; 3]%Z [0; 5]%Z
           [0; 0]%Z 1).
  - lia.
  - intros d Hd. destruct d as [| [| d]]; [reflexivity | now elim Hd |].
    cbn. now destruct d.
  - reflexivity.
  - cbn. lia.
  - cbn. lia.
  - reflexivity.
Defined.

Lemma radius_le_maxDist_even_sizes_witness :
  (1 <= 2)%nat /\
  0 <= computeDistFrom0 2 [2; 8]%Z [1; 4]%Z [0; 0]%Z
  <= computeMaxDist 2 [2; 8]%Z.
Proof.
  split; [lia |].
  apply (radius_le_maxDist_even_sizes 2 [2; 8]%Z [1; 4]%Z [0; 0]%Z).
  - intros d Hd. destruct d as [| [| d]]; [cbn; lia | cbn; lia | lia].
  - intros d Hd. assert (d = 1%nat) as -> by lia. reflexivity.
  - lia.
Defined.

(** ** Two more invariances *)

(** X25.  Running [GenerateOutputInformation] again on the output it
    produced, with the same inputs, changes nothing. *)
Theorem X25_output_information_idempotent
    (ImageDimension : nat) (fixed moving output : option ImageType) :
  GenerateOutputInformation ImageDimension fixed moving
    (GenerateOutputInformation ImageDimension fixed moving output)
  = GenerateOutputInformation ImageDimension fixed moving output.
Proof.
  destruct fixed as [f |], moving as [m |], output as [o |]; try reflexivity.
  cbn. do 2 f_equal. unfold computeMetaData.
  destruct (FFT_Actual_RealImage_Size f), (FFT_Actual_RealImage_Size m);
    reflexivity.
Qed.

(** X26.  The radius depends on an index only through its offsets from the
    start index: an index and a start index moved by the same amount on
    every axis give the same radius. *)
Theorem X26_radius_depends_on_offsets
    (VImageDimension : nat) (size : SizeType)
    (ind ind0 ind' ind0' : IndexType) :
  (forall d : nat,
      (at_ ind' d - at_ ind0' d = at_ ind d - at_ ind0 d)%Z) ->
  computeDistFrom0 VImageDimension size ind' ind0'
  = computeDistFrom0 VImageDimension size ind ind0.
Proof.
  intros H. rewrite !computeDistFrom0_sqDistZ. do 2 f_equal.
  unfold sqDistZ. rewrite (H 0%nat).
  apply (fold_left_plus_ext
           (fun d => wrapS (foldedInd size ind' ind0' d
                            * foldedInd size ind' ind0' d))
           (fun d => wrapS (foldedInd size ind ind0 d
                            * foldedInd size ind ind0 d))).
  intros d _. unfold foldedInd. now rewrite (H d).
Qed.

Lemma X26_radius_depends_on_offsets_witness :
  computeDistFrom0 2 [4; 8]%Z [12; 23]%Z [10; 20]%Z
  = computeDistFrom0 2 [4; 8]%Z [2; 3]%Z [0; 0]%Z.
Proof.
  apply (X26_radius_depends_on_offsets 2 [4; 8]%Z [2; 3]%Z [0; 0]%Z
           [12; 23]%Z [10; 20]%Z).
  intros d. destruct d as [| [| d]]; [reflexivity | reflexivity |].
  cbn. now destruct d.
Defined.
